(** * Security Detection Game: session state machine and fallback audit

    A shallow embedding of the client's round logic:

    - [calculateGameConfig] (types/game.ts),
    - [gameReducer] and [initialState] (hooks/useGameState.ts),
    - [generateMockAudit] and its three lookup tables (services/hacktron.ts),
    - the answer and end-of-round handlers of App.tsx.

    JavaScript numbers that the code only ever uses as integers are [Z];
    the two fractional factors of the timer adjustment are rationals ([Q]).
    [tasks.map((task, index) => ...)] is stdpp's [imap]; [tasks[i]] is a
    partial lookup. *)

From Stdlib Require Import ZArith QArith Qround Lia.
From Stdlib Require Import DecimalString.
From stdpp Require Import base decidable option list numbers strings.

#[local] Open Scope Z_scope.

(** ** Enumerations (types/game.ts) *)

Inductive GamePhase := IDLE | LOADING | PLAYING | AUDITING | DEBRIEF.
Inductive Difficulty := EASY | MEDIUM | HARD.
Inductive Language := javascript | python | java | go | php.
Inductive VulnerabilityType :=
  | XSS | SQL_INJECTION | RCE | SSRF | PATH_TRAVERSAL
  | COMMAND_INJECTION | INSECURE_DESERIALIZATION | SAFE.
Inductive SystemName :=
  | O2 | NAVIGATION | SHIELDS | REACTOR | COMMUNICATIONS
  | ELECTRICAL | MEDBAY | SECURITY | WEAPONS | ADMIN.
Inductive TaskStatus := pending | completed | failed | current.
Inductive Answer := safe | vulnerable.
Inductive Severity := LOW | MEDIUM_SEVERITY | HIGH | CRITICAL.
Inductive ComplexityLevel := basic | intermediate | advanced.
Inductive GameOverReason := timeout | wrong_answer | completed_round.

#[global] Instance GamePhase_eq_dec : EqDecision GamePhase.
Proof. solve_decision. Defined.
#[global] Instance Difficulty_eq_dec : EqDecision Difficulty.
Proof. solve_decision. Defined.
#[global] Instance TaskStatus_eq_dec : EqDecision TaskStatus.
Proof. solve_decision. Defined.
#[global] Instance Answer_eq_dec : EqDecision Answer.
Proof. solve_decision. Defined.
#[global] Instance Severity_eq_dec : EqDecision Severity.
Proof. solve_decision. Defined.

(** ** Records *)

Module DifficultyFactors.
Record t := mk {
  affectsTimer : bool;
  affectsComplexity : bool;
  affectsTaskCount : bool;
}.
End DifficultyFactors.
Abbreviation DifficultyFactors := DifficultyFactors.t.

Module Task.
Record t := mk {
  id : string;
  systemName : SystemName;
  code : string;
  language : Language;
  isVulnerable : bool;
  vulnerabilityType : VulnerabilityType;
  vulnerabilityLine : option Z;
  explanation : option string;
  status : TaskStatus;
  userAnswer : option Answer;
}.

(** [{ ...task, status: st }] *)
Definition with_status (st : TaskStatus) (task : t) : t :=
  mk (id task) (systemName task) (code task) (language task)
     (isVulnerable task) (vulnerabilityType task) (vulnerabilityLine task)
     (explanation task) st (userAnswer task).

(** [{ ...task, status: st, userAnswer }] *)
Definition with_status_answer (st : TaskStatus) (a : Answer) (task : t) : t :=
  mk (id task) (systemName task) (code task) (language task)
     (isVulnerable task) (vulnerabilityType task) (vulnerabilityLine task)
     (explanation task) st (Some a).
End Task.
Abbreviation Task := Task.t.

Module AuditFinding.
Record t := mk {
  taskId : string;
  systemName : SystemName;
  vulnerability : VulnerabilityType;
  severity : Severity;
  description : string;
  line : Z;
  column : option Z;
  remediation : string;
  codeSnippet : option string;
}.
End AuditFinding.
Abbreviation AuditFinding := AuditFinding.t.

Module AuditReport.
Record t := mk {
  findings : list AuditFinding;
  summary : string;
  audioUrl : option string;
}.
End AuditReport.
Abbreviation AuditReport := AuditReport.t.

Module GameConfig.
Record t := mk {
  taskCount : Z;
  timePerTask : Z;
  complexityLevel : ComplexityLevel;
}.
End GameConfig.
Abbreviation GameConfig := GameConfig.t.

Module GameState.
Record t := mk {
  phase : GamePhase;
  difficulty : Difficulty;
  difficultyFactors : DifficultyFactors;
  language : Language;
  tasks : list Task;
  currentTaskIndex : Z;
  timePerTask : Z;
  timeRemaining : Z;
  score : Z;
  totalCorrect : Z;
  totalIncorrect : Z;
  gameOverReason : option GameOverReason;
  auditReport : option AuditReport;
}.

(** One setter per field, for the object spreads [{ ...state, f: v }]. *)
Definition with_phase (v : GamePhase) (s : t) : t :=
  mk v (difficulty s) (difficultyFactors s) (language s) (tasks s)
     (currentTaskIndex s) (timePerTask s) (timeRemaining s) (score s)
     (totalCorrect s) (totalIncorrect s) (gameOverReason s) (auditReport s).
Definition with_difficulty (v : Difficulty) (s : t) : t :=
  mk (phase s) v (difficultyFactors s) (language s) (tasks s)
     (currentTaskIndex s) (timePerTask s) (timeRemaining s) (score s)
     (totalCorrect s) (totalIncorrect s) (gameOverReason s) (auditReport s).
Definition with_difficultyFactors (v : DifficultyFactors) (s : t) : t :=
  mk (phase s) (difficulty s) v (language s) (tasks s)
     (currentTaskIndex s) (timePerTask s) (timeRemaining s) (score s)
     (totalCorrect s) (totalIncorrect s) (gameOverReason s) (auditReport s).
Definition with_language (v : Language) (s : t) : t :=
  mk (phase s) (difficulty s) (difficultyFactors s) v (tasks s)
     (currentTaskIndex s) (timePerTask s) (timeRemaining s) (score s)
     (totalCorrect s) (totalIncorrect s) (gameOverReason s) (auditReport s).
Definition with_tasks (v : list Task) (s : t) : t :=
  mk (phase s) (difficulty s) (difficultyFactors s) (language s) v
     (currentTaskIndex s) (timePerTask s) (timeRemaining s) (score s)
     (totalCorrect s) (totalIncorrect s) (gameOverReason s) (auditReport s).
Definition with_currentTaskIndex (v : Z) (s : t) : t :=
  mk (phase s) (difficulty s) (difficultyFactors s) (language s) (tasks s)
     v (timePerTask s) (timeRemaining s) (score s)
     (totalCorrect s) (totalIncorrect s) (gameOverReason s) (auditReport s).
Definition with_timePerTask (v : Z) (s : t) : t :=
  mk (phase s) (difficulty s) (difficultyFactors s) (language s) (tasks s)
     (currentTaskIndex s) v (timeRemaining s) (score s)
     (totalCorrect s) (totalIncorrect s) (gameOverReason s) (auditReport s).
Definition with_timeRemaining (v : Z) (s : t) : t :=
  mk (phase s) (difficulty s) (difficultyFactors s) (language s) (tasks s)
     (currentTaskIndex s) (timePerTask s) v (score s)
     (totalCorrect s) (totalIncorrect s) (gameOverReason s) (auditReport s).
Definition with_score (v : Z) (s : t) : t :=
  mk (phase s) (difficulty s) (difficultyFactors s) (language s) (tasks s)
     (currentTaskIndex s) (timePerTask s) (timeRemaining s) v
     (totalCorrect s) (totalIncorrect s) (gameOverReason s) (auditReport s).
Definition with_totalCorrect (v : Z) (s : t) : t :=
  mk (phase s) (difficulty s) (difficultyFactors s) (language s) (tasks s)
     (currentTaskIndex s) (timePerTask s) (timeRemaining s) (score s)
     v (totalIncorrect s) (gameOverReason s) (auditReport s).
Definition with_totalIncorrect (v : Z) (s : t) : t :=
  mk (phase s) (difficulty s) (difficultyFactors s) (language s) (tasks s)
     (currentTaskIndex s) (timePerTask s) (timeRemaining s) (score s)
     (totalCorrect s) v (gameOverReason s) (auditReport s).
Definition with_gameOverReason (v : option GameOverReason) (s : t) : t :=
  mk (phase s) (difficulty s) (difficultyFactors s) (language s) (tasks s)
     (currentTaskIndex s) (timePerTask s) (timeRemaining s) (score s)
     (totalCorrect s) (totalIncorrect s) v (auditReport s).
Definition with_auditReport (v : option AuditReport) (s : t) : t :=
  mk (phase s) (difficulty s) (difficultyFactors s) (language s) (tasks s)
     (currentTaskIndex s) (timePerTask s) (timeRemaining s) (score s)
     (totalCorrect s) (totalIncorrect s) (gameOverReason s) v.
End GameState.
Abbreviation GameState := GameState.t.

(** ** Difficulty config resolver (types/game.ts, calculateGameConfig) *)

(** [Math.floor] on a rational. *)
Definition Math_floor (x : Q) : Z := Qfloor x.

(** [[a, b, c].filter(Boolean).length] *)
Definition factorCount (factors : DifficultyFactors) : Z :=
  Z.of_nat (length (filter (λ b : bool, Is_true b)
    [DifficultyFactors.affectsTimer factors;
     DifficultyFactors.affectsComplexity factors;
     DifficultyFactors.affectsTaskCount factors])).

(** The value of [timePerTask] after the factor-count adjustment and before
    the difficulty adjustment: it starts at 45 and is overwritten when the
    count is 1, 2 or 3. *)
Definition baseTimePerTask (factors : DifficultyFactors) : Z :=
  let n := factorCount factors in
  if bool_decide (n = 1) then 15
  else if bool_decide (n = 2) then 30
  else if bool_decide (n = 3) then 45
  else 45.

(** The difficulty adjustment of the timer, applied when [affectsTimer].
    The products are exact here; in the source they are IEEE doubles, and on
    the only bases that occur (15, 30 and 45) the rounded products 22.5, 45,
    67.5 and 10.5, 21, 31.499999999999996 have the same floors as the exact
    ones. *)
Definition adjustTimer (difficulty : Difficulty) (timePerTask : Z) : Z :=
  match difficulty with
  | EASY => Math_floor (inject_Z timePerTask * (15 # 10))
  | MEDIUM => timePerTask
  | HARD => Math_floor (inject_Z timePerTask * (7 # 10))
  end.

(** [random2] stands for the draw [Math.floor(Math.random() * 2)], 0 or 1;
    it is read only when [affectsTaskCount] is set and the difficulty is
    EASY or HARD. *)
Definition calculateGameConfig (random2 : Z)
    (difficulty : Difficulty) (factors : DifficultyFactors) : GameConfig :=
  let taskCount := 5 in
  let timePerTask := baseTimePerTask factors in
  let complexityLevel := basic in
  let taskCount :=
    if DifficultyFactors.affectsTaskCount factors then
      match difficulty with
      | EASY => 3 + random2
      | MEDIUM => 5
      | HARD => 6 + random2
      end
    else taskCount in
  let complexityLevel :=
    if DifficultyFactors.affectsComplexity factors then
      match difficulty with
      | EASY => basic
      | MEDIUM => intermediate
      | HARD => advanced
      end
    else complexityLevel in
  let timePerTask :=
    if DifficultyFactors.affectsTimer factors
    then adjustTimer difficulty timePerTask
    else timePerTask in
  GameConfig.mk taskCount timePerTask complexityLevel.

(** ** Session state machine (hooks/useGameState.ts) *)

Inductive GameAction :=
  | START_GAME
  | SET_DIFFICULTY (difficulty : Difficulty) (factors : DifficultyFactors)
  | SET_LANGUAGE (payload : Language)
  | START_LOADING
  | LOAD_TASKS (payload : list Task)
  | START_PLAYING
  | ANSWER_TASK (answer : Answer)
  | NEXT_TASK
  | TICK_TIMER
  | TIME_UP
  | GAME_OVER (reason : GameOverReason)
  | START_AUDITING
  | SET_AUDIT_REPORT (payload : AuditReport)
  | START_DEBRIEF
  | RESET_GAME.

Definition initialState : GameState :=
  {| GameState.phase := IDLE;
     GameState.difficulty := MEDIUM;
     GameState.difficultyFactors := DifficultyFactors.mk true true false;
     GameState.language := javascript;
     GameState.tasks := [];
     GameState.currentTaskIndex := 0;
     GameState.timePerTask := 30;
     GameState.timeRemaining := 30;
     GameState.score := 0;
     GameState.totalCorrect := 0;
     GameState.totalIncorrect := 0;
     GameState.gameOverReason := None;
     GameState.auditReport := None |}.

(** [tasks[i]]: [undefined] outside the array, in particular for a negative
    index. *)
Definition taskAt (tasks : list Task) (i : Z) : option Task :=
  if bool_decide (0 ≤ i) then tasks !! Z.to_nat i else None.

(** [(userAnswer === 'vulnerable' && task.isVulnerable) ||
     (userAnswer === 'safe' && !task.isVulnerable)] *)
Definition isCorrect (userAnswer : Answer) (task : Task) : bool :=
  (bool_decide (userAnswer = vulnerable) && Task.isVulnerable task)
  || (bool_decide (userAnswer = safe) && negb (Task.isVulnerable task)).

Definition gameReducer (state : GameState) (action : GameAction) : GameState :=
  match action with
  | START_GAME => GameState.with_phase IDLE state
  | SET_DIFFICULTY difficulty factors =>
      (* only [timePerTask] of the config is read; it does not depend on
         the random draw, which is fixed at 0 here *)
      let config := calculateGameConfig 0 difficulty factors in
      GameState.with_timeRemaining (GameConfig.timePerTask config)
        (GameState.with_timePerTask (GameConfig.timePerTask config)
          (GameState.with_difficultyFactors factors
            (GameState.with_difficulty difficulty state)))
  | SET_LANGUAGE payload => GameState.with_language payload state
  | START_LOADING =>
      GameState.with_auditReport None
        (GameState.with_gameOverReason None
          (GameState.with_totalIncorrect 0
            (GameState.with_totalCorrect 0
              (GameState.with_score 0
                (GameState.with_currentTaskIndex 0
                  (GameState.with_tasks []
                    (GameState.with_phase LOADING state)))))))
  | LOAD_TASKS payload =>
      let tasks :=
        imap (λ index task,
                Task.with_status
                  (if bool_decide (index = 0%nat) then current else pending)
                  task)
             payload in
      GameState.with_timeRemaining (GameState.timePerTask state)
        (GameState.with_tasks tasks state)
  | START_PLAYING =>
      GameState.with_timeRemaining (GameState.timePerTask state)
        (GameState.with_phase PLAYING state)
  | ANSWER_TASK userAnswer =>
      match taskAt (GameState.tasks state) (GameState.currentTaskIndex state) with
      | None => state
      | Some currentTask =>
          let isCorrect := isCorrect userAnswer currentTask in
          if bool_decide (userAnswer = vulnerable)
             && negb (Task.isVulnerable currentTask)
          then
            let updatedTasks :=
              imap (λ index task,
                      if bool_decide
                           (Z.of_nat index = GameState.currentTaskIndex state)
                      then Task.with_status_answer failed userAnswer task
                      else task)
                   (GameState.tasks state) in
            GameState.with_phase AUDITING
              (GameState.with_gameOverReason (Some wrong_answer)
                (GameState.with_totalIncorrect
                   (GameState.totalIncorrect state + 1)
                   (GameState.with_tasks updatedTasks state)))
          else
            let updatedTasks :=
              imap (λ index task,
                      if bool_decide
                           (Z.of_nat index = GameState.currentTaskIndex state)
                      then Task.with_status_answer
                             (if isCorrect then completed else failed)
                             userAnswer task
                      else if bool_decide
                           (Z.of_nat index
                            = GameState.currentTaskIndex state + 1)
                      then Task.with_status current task
                      else task)
                   (GameState.tasks state) in
            let newScore :=
              if isCorrect then GameState.score state + 100
              else GameState.score state in
            let isLastTask :=
              bool_decide (Z.of_nat (length (GameState.tasks state)) - 1
                           ≤ GameState.currentTaskIndex state) in
            let counted :=
              GameState.with_totalIncorrect
                (if isCorrect then GameState.totalIncorrect state
                 else GameState.totalIncorrect state + 1)
                (GameState.with_totalCorrect
                   (if isCorrect then GameState.totalCorrect state + 1
                    else GameState.totalCorrect state)
                   (GameState.with_score newScore
                      (GameState.with_tasks updatedTasks state))) in
            if isLastTask then
              GameState.with_phase AUDITING
                (GameState.with_gameOverReason (Some completed_round) counted)
            else
              GameState.with_timeRemaining (GameState.timePerTask state)
                (GameState.with_currentTaskIndex
                   (GameState.currentTaskIndex state + 1) counted)
      end
  | NEXT_TASK =>
      let nextIndex := GameState.currentTaskIndex state + 1 in
      if bool_decide (Z.of_nat (length (GameState.tasks state)) ≤ nextIndex)
      then
        GameState.with_phase AUDITING
          (GameState.with_gameOverReason (Some completed_round) state)
      else
        let updatedTasks :=
          imap (λ index task,
                  if bool_decide (Z.of_nat index = nextIndex)
                  then Task.with_status current task
                  else task)
               (GameState.tasks state) in
        GameState.with_timeRemaining (GameState.timePerTask state)
          (GameState.with_currentTaskIndex nextIndex
            (GameState.with_tasks updatedTasks state))
  | TICK_TIMER =>
      if bool_decide (GameState.timeRemaining state ≤ 1)
      then GameState.with_timeRemaining 0 state
      else GameState.with_timeRemaining (GameState.timeRemaining state - 1) state
  | TIME_UP =>
      let updatedTasks :=
        imap (λ index task,
                if bool_decide
                     (Z.of_nat index = GameState.currentTaskIndex state)
                then Task.with_status failed task
                else task)
             (GameState.tasks state) in
      GameState.with_phase AUDITING
        (GameState.with_gameOverReason (Some timeout)
          (GameState.with_tasks updatedTasks state))
  | GAME_OVER reason =>
      GameState.with_phase AUDITING
        (GameState.with_gameOverReason (Some reason) state)
  | START_AUDITING => GameState.with_phase AUDITING state
  | SET_AUDIT_REPORT payload =>
      GameState.with_auditReport (Some payload) state
  | START_DEBRIEF => GameState.with_phase DEBRIEF state
  | RESET_GAME => initialState
  end.

(** The reducer folded over a sequence of dispatched actions. *)
Definition dispatchAll (state : GameState) (actions : list GameAction) : GameState :=
  foldl gameReducer state actions.

(** ** Fallback audit (services/hacktron.ts) *)

Definition REMEDIATIONS (v : VulnerabilityType) : string :=
  match v with
  | XSS => "Use proper output encoding. For HTML context, use textContent instead of innerHTML. Consider using a templating library with auto-escaping."
  | SQL_INJECTION => "Use parameterized queries or prepared statements. Never concatenate user input directly into SQL queries."
  | RCE => "Avoid using shell commands with user input. If necessary, use strict input validation and allowlisting."
  | SSRF => "Validate and sanitize URLs. Use an allowlist of permitted domains. Disable redirects or validate redirect targets."
  | PATH_TRAVERSAL => "Sanitize file paths using path.basename() or equivalent. Use an allowlist of permitted directories."
  | COMMAND_INJECTION => "Avoid shell execution. If required, use parameterized commands and strict input validation."
  | INSECURE_DESERIALIZATION => "Avoid deserializing untrusted data. Use safe serialization formats like JSON. Implement integrity checks."
  | SAFE => "No remediation needed - this code follows security best practices."
  end.

Definition SEVERITY_MAP (v : VulnerabilityType) : Severity :=
  match v with
  | XSS => HIGH
  | SQL_INJECTION => CRITICAL
  | RCE => CRITICAL
  | SSRF => HIGH
  | PATH_TRAVERSAL => HIGH
  | COMMAND_INJECTION => CRITICAL
  | INSECURE_DESERIALIZATION => HIGH
  | SAFE => LOW
  end.

Definition DESCRIPTIONS (v : VulnerabilityType) : string :=
  match v with
  | XSS => "Cross-Site Scripting (XSS) vulnerability detected. User input is directly inserted into the DOM without proper sanitization, allowing attackers to inject malicious scripts."
  | SQL_INJECTION => "SQL Injection vulnerability detected. User input is directly concatenated into SQL queries, allowing attackers to manipulate database operations."
  | RCE => "Remote Code Execution (RCE) vulnerability detected. User input is passed to system command execution without proper validation."
  | SSRF => "Server-Side Request Forgery (SSRF) vulnerability detected. The application fetches URLs provided by users without validation, allowing internal network access."
  | PATH_TRAVERSAL => "Path Traversal vulnerability detected. User input is used in file path construction without proper sanitization, allowing access to arbitrary files."
  | COMMAND_INJECTION => "Command Injection vulnerability detected. User input is concatenated into shell commands, allowing arbitrary command execution."
  | INSECURE_DESERIALIZATION => "Insecure Deserialization vulnerability detected. Untrusted data is deserialized without validation, potentially allowing code execution."
  | SAFE => "This code segment follows security best practices and does not contain obvious vulnerabilities."
  end.

Module AuditRequest.
Record t := mk {
  tasks : list Task;
  language : Language;
}.
End AuditRequest.
Abbreviation AuditRequest := AuditRequest.t.

(** [task.vulnerabilityLine || 1]: the right operand is taken when the left
    one is falsy, that is [undefined] or [0]. *)
Definition lineOrDefault (vulnerabilityLine : option Z) : Z :=
  match vulnerabilityLine with
  | Some n => if bool_decide (n = 0) then 1 else n
  | None => 1
  end.

(** The object literal built for one task inside [generateMockAudit]. *)
Definition findingOfTask (task : Task) : AuditFinding :=
  {| AuditFinding.taskId := Task.id task;
     AuditFinding.systemName := Task.systemName task;
     AuditFinding.vulnerability := Task.vulnerabilityType task;
     AuditFinding.severity := SEVERITY_MAP (Task.vulnerabilityType task);
     AuditFinding.description := DESCRIPTIONS (Task.vulnerabilityType task);
     AuditFinding.line := lineOrDefault (Task.vulnerabilityLine task);
     AuditFinding.column := Some 1;
     AuditFinding.remediation := REMEDIATIONS (Task.vulnerabilityType task);
     AuditFinding.codeSnippet := Some (Task.code task) |}.

(** A count interpolated into a template literal: its decimal numeral. *)
Definition numberToString (n : nat) : string :=
  NilZero.string_of_uint (Nat.to_uint n).

(** The summary text, from the three counts. *)
Definition mockSummary (vulnerableCount criticalCount highCount : nat) : string :=
  if bool_decide (vulnerableCount = 0%nat) then
    "Security scan complete. All analyzed code segments follow security best practices. No vulnerabilities detected."
  else
    let summary :=
      "Security scan detected " +:+ numberToString vulnerableCount
      +:+ " vulnerabilit"
      +:+ (if bool_decide (vulnerableCount = 1%nat) then "y" else "ies")
      +:+ " across ship systems. " in
    let summary :=
      if bool_decide (0 < criticalCount)%nat then
        summary +:+ (numberToString criticalCount
          +:+ " CRITICAL severity issue"
          +:+ (if bool_decide (criticalCount = 1%nat) then EmptyString else "s")
          +:+ " require immediate attention. ")
      else summary in
    let summary :=
      if bool_decide (0 < highCount)%nat then
        summary +:+ (numberToString highCount
          +:+ " HIGH severity issue"
          +:+ (if bool_decide (highCount = 1%nat) then EmptyString else "s")
          +:+ " should be addressed promptly. ")
      else summary in
    summary +:+ "Review the detailed findings below for remediation guidance.".

(** [generateMockAudit] always answers [{ success: true, data: { report } }];
    the report is what is returned here. *)
Definition generateMockAudit (request : AuditRequest) : AuditReport :=
  let findings :=
    findingOfTask
      <$> filter (λ task, Is_true (Task.isVulnerable task))
                 (AuditRequest.tasks request) in
  let vulnerableCount := length findings in
  let criticalCount :=
    length (filter (λ f, AuditFinding.severity f = CRITICAL) findings) in
  let highCount :=
    length (filter (λ f, AuditFinding.severity f = HIGH) findings) in
  {| AuditReport.findings := findings;
     AuditReport.summary := mockSummary vulnerableCount criticalCount highCount;
     AuditReport.audioUrl := None |}.

(** ** Orchestration (App.tsx) *)

Inductive Sound := click | tick | siren | success | warning.

Module GenerateSnippetsRequest.
Record t := mk {
  language : Language;
  difficulty : Difficulty;
  complexityLevel : ComplexityLevel;
  count : Z;
}.
End GenerateSnippetsRequest.
Abbreviation GenerateSnippetsRequest := GenerateSnippetsRequest.t.

(** What a handler sends to its collaborators, in order. Dispatched reducer
    actions are not listed: they are folded into the game state. *)
Inductive Effect :=
  | Play (sound : Sound)
  | GenerateSnippets (request : GenerateSnippetsRequest).

(** The component's state: the reducer state and the [useState] cells the
    handlers below touch. [endlessMode] is read in App.tsx as
    [state.endlessMode]; the [GameState] declaration of types/game.ts has no
    such field, so the flag is kept beside the reducer state. *)
Module App.
Record t := mk {
  state : GameState;
  endlessMode : bool;
  endlessStage : Difficulty;
  showEmergency : bool;
  isGenerating : bool;
}.
End App.
Abbreviation App := App.t.

(** [state.tasks[state.currentTaskIndex] || null] *)
Definition currentTask (state : GameState) : option Task :=
  taskAt (GameState.tasks state) (GameState.currentTaskIndex state).

(** The request built by [generateEndlessBatch]. Only [complexityLevel] of
    the config is read, which does not depend on the random draw. *)
Definition generateEndlessBatch
    (stage : Difficulty) (factors : DifficultyFactors) (language : Language)
    : GenerateSnippetsRequest :=
  let config := calculateGameConfig 0 stage factors in
  {| GenerateSnippetsRequest.language := language;
     GenerateSnippetsRequest.difficulty := stage;
     GenerateSnippetsRequest.complexityLevel := GameConfig.complexityLevel config;
     GenerateSnippetsRequest.count := 5 |}.

(** [endlessStage === "EASY" ? "MEDIUM" : endlessStage === "MEDIUM" ? "HARD" : "HARD"] *)
Definition nextStage (endlessStage : Difficulty) : Difficulty :=
  if bool_decide (endlessStage = EASY) then MEDIUM
  else if bool_decide (endlessStage = MEDIUM) then HARD
  else HARD.

(** [state.tasks.some((task, idx) => idx !== state.currentTaskIndex &&
     task.status === "failed")] *)
Definition previousFailed (state : GameState) : bool :=
  existsb id
    (imap (λ idx task,
             negb (bool_decide (Z.of_nat idx = GameState.currentTaskIndex state))
             && bool_decide (Task.status task = failed))
          (GameState.tasks state)).

(** [handleAnswer], up to the point where it returns. The values it reads
    from [state] are those of the render that created the callback, that is
    the state before its own dispatches. *)
Definition handleAnswer (app : App) (answer : Answer) : App * list Effect :=
  let state := App.state app in
  match currentTask state with
  | None => (app, [])
  | Some task =>
      let isCorrect := isCorrect answer task in
      if App.endlessMode app && negb isCorrect then
        (App.mk (dispatchAll state [ANSWER_TASK answer; GAME_OVER wrong_answer])
                (App.endlessMode app) (App.endlessStage app)
                true (App.isGenerating app),
         [Play siren])
      else
        let answered := dispatchAll state [ANSWER_TASK answer] in
        let played := Play (if isCorrect then success else warning) in
        let isLastTask :=
          bool_decide (Z.of_nat (length (GameState.tasks state)) - 1
                       ≤ GameState.currentTaskIndex state) in
        if App.endlessMode app && isLastTask
           && (isCorrect && negb (previousFailed state))
        then
          let nextStage := nextStage (App.endlessStage app) in
          (App.mk (dispatchAll answered [START_LOADING])
                  (App.endlessMode app) nextStage
                  (App.showEmergency app) true,
           [played;
            GenerateSnippets
              (generateEndlessBatch nextStage
                 (GameState.difficultyFactors state)
                 (GameState.language state))])
        else if isLastTask then
          (App.mk answered (App.endlessMode app) (App.endlessStage app)
                  true (App.isGenerating app),
           [played])
        else
          (App.mk answered (App.endlessMode app) (App.endlessStage app)
                  (App.showEmergency app) (App.isGenerating app),
           [played])
  end.

(** The continuation of the batch request in [handleAnswer]: [Some tasks]
    is a successful result, [None] a failed one. *)
Definition onEndlessBatch (app : App) (result : option (list Task)) : App :=
  let state := App.state app in
  App.mk
    (match result with
     | Some tasks => dispatchAll state [LOAD_TASKS tasks; START_PLAYING]
     | None => dispatchAll state [RESET_GAME]
     end)
    (App.endlessMode app) (App.endlessStage app) (App.showEmergency app) false.

(** [tasksToAudit] of [handleContinueFromEmergency]. *)
Definition tasksToAudit (endlessMode : bool) (tasks : list Task) : list Task :=
  if endlessMode then
    filter (λ t, Task.status t = failed) tasks
  else
    filter (λ t, Task.status t = failed
                 ∨ (Is_true (Task.isVulnerable t) ∧ Task.status t ≠ completed))
           tasks.

(** The scanner request [handleContinueFromEmergency] issues: none when
    there is nothing to audit (the report is then built in place). *)
Definition auditRequestOf (app : App) : option AuditRequest :=
  let state := App.state app in
  let tasksToAudit := tasksToAudit (App.endlessMode app) (GameState.tasks state) in
  if bool_decide (0 < length tasksToAudit)%nat
  then Some (AuditRequest.mk tasksToAudit (GameState.language state))
  else None.

(** ** Derived values of the hook (hooks/useGameState.ts, useGameState) *)

(** [state.tasks.filter((t) => t.status === 'completed').length] *)
Definition completedTasks (state : GameState) : nat :=
  length (filter (λ t, Task.status t = completed) (GameState.tasks state)).

(** [state.tasks.filter((t) => t.status === 'failed')] *)
Definition failedTasks (state : GameState) : list Task :=
  filter (λ t, Task.status t = failed) (GameState.tasks state).

(** [state.tasks.filter((t) => t.status === 'pending' || t.status === 'current')] *)
Definition pendingTasks (state : GameState) : list Task :=
  filter (λ t, Task.status t = pending ∨ Task.status t = current)
         (GameState.tasks state).

(** ** The scanner with its fallback (services/hacktron.ts, auditTasks) *)

(** [auditTasks]: [api] is the outcome of the remote call, [None] when it
    throws; the result is always a success, of which the report is
    returned. *)
Definition auditTasks (api : option AuditReport) (request : AuditRequest)
    : AuditReport :=
  match api with
  | Some response => response
  | None => generateMockAudit request
  end.

(** ** Round start, countdown and debrief (App.tsx) *)

(** [handleStartGame] up to its [await]: the three dispatches, the
    [isGenerating] flag and the generator request. [random2] is the draw of
    the [calculateGameConfig] call that supplies [count]. *)
Definition handleStartGame (random2 : Z) (app : App)
    (difficulty : Difficulty) (factors : DifficultyFactors) (language : Language)
    : App * GenerateSnippetsRequest :=
  let startingDifficulty := if App.endlessMode app then EASY else difficulty in
  let state :=
    dispatchAll (App.state app)
      [SET_DIFFICULTY startingDifficulty factors; SET_LANGUAGE language;
       START_LOADING] in
  let request :=
    if App.endlessMode app
    then generateEndlessBatch EASY factors language
    else
      {| GenerateSnippetsRequest.language := language;
         GenerateSnippetsRequest.difficulty := difficulty;
         GenerateSnippetsRequest.complexityLevel :=
           GameConfig.complexityLevel (calculateGameConfig 0 difficulty factors);
         GenerateSnippetsRequest.count :=
           GameConfig.taskCount (calculateGameConfig random2 difficulty factors) |} in
  (App.mk state (App.endlessMode app) (App.endlessStage app)
          (App.showEmergency app) true,
   request).

(** [handleStartGame] after its [await]: [Some tasks] is a successful
    generator result, [None] a failed one. *)
Definition onSnippets (app : App) (result : option (list Task))
    : App * list Effect :=
  match result with
  | Some tasks =>
      (App.mk (dispatchAll (App.state app) [LOAD_TASKS tasks; START_PLAYING])
              (App.endlessMode app)
              (if App.endlessMode app then EASY else App.endlessStage app)
              (App.showEmergency app) false,
       [Play click])
  | None =>
      (App.mk (dispatchAll (App.state app) [RESET_GAME])
              (App.endlessMode app) (App.endlessStage app)
              (App.showEmergency app) false,
       [])
  end.

(** The interval callback of the timer effect. The interval exists only
    while the phase is PLAYING. *)
Definition timerEffect (app : App) : App :=
  if bool_decide (GameState.phase (App.state app) = PLAYING)
  then App.mk (dispatchAll (App.state app) [TICK_TIMER])
              (App.endlessMode app) (App.endlessStage app)
              (App.showEmergency app) (App.isGenerating app)
  else app.

(** The effect that watches [phase] and [timeRemaining]. *)
Definition timeoutEffect (app : App) : App * list Effect :=
  let state := App.state app in
  if bool_decide (GameState.phase state ≠ PLAYING) then (app, [])
  else if bool_decide (GameState.timeRemaining state ≤ 0) then
    (App.mk (dispatchAll state [TIME_UP])
            (App.endlessMode app) (App.endlessStage app)
            true (App.isGenerating app),
     [Play warning])
  else if bool_decide (GameState.timeRemaining state ≤ 5) then
    (app, [Play tick])
  else (app, []).

(** One second of play: the interval fires, the component renders, and the
    watching effect runs on the new state. *)
Definition secondPasses (app : App) : App :=
  (timeoutEffect (timerEffect app)).1.

(** [handleContinueFromEmergency]. [api] is the outcome of the remote
    scanner call and [speak] that of the speech service on a summary
    ([None]: failure). The tasks and the endless flag are those of the
    render that created the callback. *)
Definition handleContinueFromEmergency
    (api : option AuditReport) (speak : string → option string) (app : App)
    : App :=
  let state := App.state app in
  let tasksToAudit := tasksToAudit (App.endlessMode app) (GameState.tasks state) in
  let report :=
    if bool_decide (0 < length tasksToAudit)%nat then
      let report :=
        auditTasks api (AuditRequest.mk tasksToAudit (GameState.language state)) in
      {| AuditReport.findings := AuditReport.findings report;
         AuditReport.summary := AuditReport.summary report;
         AuditReport.audioUrl := speak (AuditReport.summary report) |}
    else
      let perfectScoreSummary :=
        "Excellent work! All security checks passed successfully. Ship systems are secure." in
      {| AuditReport.findings := [];
         AuditReport.summary := perfectScoreSummary;
         AuditReport.audioUrl := speak perfectScoreSummary |} in
  App.mk (dispatchAll state
            [START_AUDITING; SET_AUDIT_REPORT report; START_DEBRIEF])
         (App.endlessMode app) (App.endlessStage app)
         false (App.isGenerating app).

(** ** The report view (components/ReportModal/ReportModal.tsx) *)

Definition SEVERITY_ORDER : list Severity :=
  [CRITICAL; HIGH; MEDIUM_SEVERITY; LOW].

(** [array.indexOf(x)]: the first position of [x], or -1. *)
Fixpoint indexOf {A} `{EqDecision A} (x : A) (l : list A) : Z :=
  match l with
  | [] => -1
  | y :: l =>
      if bool_decide (y = x) then 0
      else let i := indexOf x l in if bool_decide (i = -1) then -1 else i + 1
  end.

(** The comparator handed to [sort]. *)
Definition compareSeverity (a b : AuditFinding) : Z :=
  indexOf (AuditFinding.severity a) SEVERITY_ORDER
  - indexOf (AuditFinding.severity b) SEVERITY_ORDER.

(** [Array.prototype.sort] with a comparator. The sort is stable, and with
    a comparator that is a consistent order this fixes the result; it is
    computed here by insertion from the right, which keeps equal elements
    in their original order. *)
Fixpoint insertBy {A} (compare : A → A → Z) (x : A) (l : list A) : list A :=
  match l with
  | [] => [x]
  | y :: l' =>
      if bool_decide (compare x y ≤ 0) then x :: y :: l'
      else y :: insertBy compare x l'
  end.

Definition sortBy {A} (compare : A → A → Z) (l : list A) : list A :=
  foldr (insertBy compare) [] l.

(** [sortedFindings]: the findings by severity, or none without a report. *)
Definition sortedFindings (report : option AuditReport) : list AuditFinding :=
  match report with
  | Some report => sortBy compareSeverity (AuditReport.findings report)
  | None => []
  end.

(** The object built by [accuracyByType]: per vulnerability type, the pair
    of [correct] and [total], absent for a type never seen. *)
Definition AccuracyByType : Type := VulnerabilityType → option (Z * Z).

#[global] Instance VulnerabilityType_eq_dec : EqDecision VulnerabilityType.
Proof. solve_decision. Defined.

(** One step of the [reduce]. *)
Definition accuracyStep (acc : AccuracyByType) (task : Task) : AccuracyByType :=
  let entry := default (0, 0) (acc (Task.vulnerabilityType task)) in
  let entry := (entry.1, entry.2 + 1) in
  let entry :=
    if bool_decide (Task.userAnswer task = Some vulnerable)
    then (entry.1 + 1, entry.2) else entry in
  λ type,
    if bool_decide (type = Task.vulnerabilityType task)
    then Some entry else acc type.

Definition accuracyByType (allTasks : list Task) : AccuracyByType :=
  foldl accuracyStep (λ _, None)
        (filter (λ task, Is_true (Task.isVulnerable task)) allTasks).

(** * Vocabulary of the properties *)

(** ** The config resolver *)

(** The factors by which the spec says the base time is multiplied. *)
Definition specTimerMultiplier (difficulty : Difficulty) : Q :=
  match difficulty with
  | EASY => 15 # 10
  | MEDIUM => 1
  | HARD => 7 # 10
  end.

(** ** Countdown and score *)

Definition timerInRange (state : GameState) : Prop :=
  0 ≤ GameState.timeRemaining state ≤ GameState.timePerTask state.

Definition scoreInvariant (state : GameState) : Prop :=
  GameState.score state = 100 * GameState.totalCorrect state.

(** ** The fallback audit *)

Definition vulnerableTasks (tasks : list Task) : list Task :=
  filter (λ task, Is_true (Task.isVulnerable task)) tasks.

(** The finding the fallback audit reports for a task: its fields come from
    the task and the three tables; the line is the task's vulnerable line
    when one is recorded and is not 0, and 1 otherwise. *)
Definition describes (task : Task) (finding : AuditFinding) : Prop :=
  AuditFinding.taskId finding = Task.id task
  ∧ AuditFinding.vulnerability finding = Task.vulnerabilityType task
  ∧ AuditFinding.severity finding = SEVERITY_MAP (Task.vulnerabilityType task)
  ∧ AuditFinding.description finding
    = DESCRIPTIONS (Task.vulnerabilityType task)
  ∧ AuditFinding.remediation finding
    = REMEDIATIONS (Task.vulnerabilityType task)
  ∧ AuditFinding.line finding
    = match Task.vulnerabilityLine task with
      | Some 0 | None => 1
      | Some n => n
      end
  ∧ AuditFinding.column finding = Some 1.

(** The line the spec prescribes: the recorded line, or 1 if absent. *)
Definition specLine (vulnerabilityLine : option Z) : Z :=
  default 1 vulnerabilityLine.

(** Whether [s] ends with [tail]. *)
Definition endsWith (s tail : string) : bool :=
  bool_decide
    (String.substring (String.length s - String.length tail) (String.length tail) s
     = tail)
  && bool_decide (String.length tail ≤ String.length s)%nat.

(** The summary as the spec words it, with the verb of the CRITICAL clause
    agreeing with the count. *)
Definition specSummary (vulnerableCount criticalCount highCount : nat) : string :=
  if bool_decide (vulnerableCount = 0%nat) then
    "Security scan complete. All analyzed code segments follow security best practices. No vulnerabilities detected."
  else
    "Security scan detected " +:+ numberToString vulnerableCount
    +:+ (if bool_decide (vulnerableCount = 1%nat)
         then " vulnerability" else " vulnerabilities")
    +:+ " across ship systems. "
    +:+ (if bool_decide (0 < criticalCount)%nat
         then numberToString criticalCount
              +:+ (if bool_decide (criticalCount = 1%nat)
                   then " CRITICAL severity issue requires"
                   else " CRITICAL severity issues require")
              +:+ " immediate attention. "
         else EmptyString)
    +:+ (if bool_decide (0 < highCount)%nat
         then numberToString highCount
              +:+ (if bool_decide (highCount = 1%nat)
                   then " HIGH severity issue" else " HIGH severity issues")
              +:+ " should be addressed promptly. "
         else EmptyString)
    +:+ "Review the detailed findings below for remediation guidance.".

(** ** The audit input *)

(** The filter the spec gives for the audit input. *)
Definition specAuditFilter (task : Task) : Prop :=
  Task.status task = failed
  ∨ (Is_true (Task.isVulnerable task) ∧ Task.status task ≠ completed).

(** ** Finished tasks and runs of a round *)

(** A task whose status is completed or failed. *)
Definition isDone (task : Task) : bool :=
  bool_decide (Task.status task = completed)
  || bool_decide (Task.status task = failed).

Definition doneCount (tasks : list Task) : Z :=
  Z.of_nat (length (filter (λ task, Is_true (isDone task)) tasks)).

Definition answeredCount (state : GameState) : Z :=
  GameState.totalCorrect state + GameState.totalIncorrect state.

(** The phase in which App.tsx dispatches an action, where it is tied to
    one: a batch is installed and play started while LOADING, answers and
    the timeout arrive while PLAYING. The reducer itself does not look at
    the phase. *)
Definition dispatchedInPhase (state : GameState) (action : GameAction) : bool :=
  match action with
  | LOAD_TASKS _ | START_PLAYING =>
      bool_decide (GameState.phase state = LOADING)
  | ANSWER_TASK _ | TIME_UP =>
      bool_decide (GameState.phase state = PLAYING)
  | _ => true
  end.

(** The state after a sequence of actions, if each came in its phase. *)
Fixpoint dispatchInPhase (state : GameState) (actions : list GameAction)
    : option GameState :=
  match actions with
  | [] => Some state
  | action :: rest =>
      if dispatchedInPhase state action
      then dispatchInPhase (gameReducer state action) rest
      else None
  end.

(** No TIME_UP among the actions. *)
Definition noTimeUp (actions : list GameAction) : bool :=
  forallb (λ action, match action with TIME_UP => false | _ => true end)
          actions.

(** What holds of the tasks and counters throughout a round. *)
Record roundInv (state : GameState) : Prop := {
  inv_ahead : ∀ i task,
    GameState.tasks state !! i = Some task →
    GameState.currentTaskIndex state < Z.of_nat i →
    isDone task = false;
  inv_current : ∀ task,
    GameState.phase state = LOADING ∨ GameState.phase state = PLAYING →
    currentTask state = Some task →
    isDone task = false;
  inv_loading :
    GameState.phase state = LOADING →
    answeredCount state = 0 ∧ doneCount (GameState.tasks state) = 0;
  inv_live :
    GameState.phase state = LOADING ∨ GameState.phase state = PLAYING →
    doneCount (GameState.tasks state) = answeredCount state;
  inv_gap :
    answeredCount state ≤ doneCount (GameState.tasks state)
                        ≤ answeredCount state + 1;
}.

(** ** Orders on the enumerations *)

Definition difficultyRank (difficulty : Difficulty) : Z :=
  match difficulty with EASY => 0 | MEDIUM => 1 | HARD => 2 end.

Definition complexityRank (level : ComplexityLevel) : Z :=
  match level with basic => 0 | intermediate => 1 | advanced => 2 end.

(** The findings of one severity, in their order. *)
Definition withSeverity (severity : Severity) (findings : list AuditFinding)
    : list AuditFinding :=
  filter (λ finding, AuditFinding.severity finding = severity) findings.

(** How many tasks pass a test. *)
Definition countTasks (test : Task → bool) (tasks : list Task) : Z :=
  Z.of_nat (length (filter (λ task, Is_true (test task)) tasks)).

(** A task of the given type, and one that was also answered "vulnerable". *)
Definition hasType (type : VulnerabilityType) (task : Task) : bool :=
  bool_decide (Task.vulnerabilityType task = type).

Definition hasTypeSpotted (type : VulnerabilityType) (task : Task) : bool :=
  hasType type task && bool_decide (Task.userAnswer task = Some vulnerable).

(** A vulnerable task of the given type. *)
Definition vulnerableOfType (type : VulnerabilityType) (task : Task) : bool :=
  Task.isVulnerable task && bool_decide (Task.vulnerabilityType task = type).

(** A vulnerable task of the given type that was answered "vulnerable". *)
Definition spottedOfType (type : VulnerabilityType) (task : Task) : bool :=
  vulnerableOfType type task
  && bool_decide (Task.userAnswer task = Some vulnerable).

(** The batch as LOAD_TASKS installs it: the first task current, the
    others pending. *)
Definition installed (batch : list Task) : list Task :=
  imap (λ index task,
          Task.with_status
            (if bool_decide (index = 0%nat) then current else pending) task)
       batch.

(** A task the fallback report has a finding for: vulnerable, and failed
    (endless mode) or not completed (otherwise). *)
Definition reportedTask (endlessMode : bool) (task : Task) : bool :=
  Task.isVulnerable task
  && (if endlessMode then bool_decide (Task.status task = failed)
      else negb (bool_decide (Task.status task = completed))).

Definition noVulnerabilitiesSummary : string :=
  "Security scan complete. All analyzed code segments follow security best practices. No vulnerabilities detected.".

Definition perfectScoreSummary : string :=
  "Excellent work! All security checks passed successfully. Ship systems are secure.".

(** ** Runs as App.tsx produces them *)

(** No NEXT_TASK among the actions: App.tsx never dispatches it. *)
Definition noNextTask (actions : list GameAction) : bool :=
  forallb (λ action, match action with NEXT_TASK => false | _ => true end)
          actions.

(** The answer that is right for a task. *)
Definition correctAnswer (task : Task) : Answer :=
  if Task.isVulnerable task then vulnerable else safe.

(** A task as a right answer leaves it. *)
Definition answeredRight (task : Task) : Task :=
  Task.with_status_answer completed (correctAnswer task) task.

(** The layout of the task list around the current index. *)
Record shapeInv (state : GameState) : Prop := {
  shape_index :
    0 ≤ GameState.currentTaskIndex state
      ≤ Z.of_nat (length (GameState.tasks state));
  shape_behind : ∀ i task,
    GameState.tasks state !! i = Some task →
    Z.of_nat i < GameState.currentTaskIndex state →
    isDone task = true;
  shape_ahead : ∀ i task,
    GameState.tasks state !! i = Some task →
    GameState.currentTaskIndex state < Z.of_nat i →
    Task.status task = pending;
  shape_current : ∀ task,
    GameState.phase state = LOADING ∨ GameState.phase state = PLAYING →
    currentTask state = Some task →
    Task.status task = current;
  shape_loading :
    GameState.phase state = LOADING → GameState.currentTaskIndex state = 0;
  shape_playing :
    GameState.phase state = PLAYING → GameState.tasks state ≠ [] →
    GameState.currentTaskIndex state
    < Z.of_nat (length (GameState.tasks state));
  shape_answered :
    GameState.phase state = LOADING ∨ GameState.phase state = PLAYING →
    GameState.currentTaskIndex state = answeredCount state;
}.

(** * Sample data *)

Definition safeTask : Task :=
  {| Task.id := "task-safe";
     Task.systemName := O2;
     Task.code := "el.textContent = name;";
     Task.language := javascript;
     Task.isVulnerable := false;
     Task.vulnerabilityType := SAFE;
     Task.vulnerabilityLine := None;
     Task.explanation := None;
     Task.status := pending;
     Task.userAnswer := None |}.

Definition sqlTask : Task :=
  {| Task.id := "task-sql";
     Task.systemName := REACTOR;
     Task.code := "db.query('SELECT * FROM crew WHERE id = ' + id);";
     Task.language := javascript;
     Task.isVulnerable := true;
     Task.vulnerabilityType := SQL_INJECTION;
     Task.vulnerabilityLine := Some 1;
     Task.explanation := None;
     Task.status := pending;
     Task.userAnswer := None |}.

Definition xssTask : Task :=
  {| Task.id := "task-xss";
     Task.systemName := NAVIGATION;
     Task.code := "el.innerHTML = name;";
     Task.language := javascript;
     Task.isVulnerable := true;
     Task.vulnerabilityType := XSS;
     Task.vulnerabilityLine := Some 0;
     Task.explanation := None;
     Task.status := pending;
     Task.userAnswer := None |}.

(** A round that has just started on the given batch. *)
Definition roundOn (batch : list Task) : GameState :=
  dispatchAll initialState [START_LOADING; LOAD_TASKS batch; START_PLAYING].

(** Endless mode on, at stage MEDIUM, on the only task of its batch. *)
Definition endlessApp : App :=
  App.mk (roundOn [sqlTask]) true MEDIUM false false.

(** Endless mode off; a round of two tasks ended by a false accusation at
    the first, the second left pending. *)
Definition endedApp : App :=
  App.mk (gameReducer (roundOn [safeTask; xssTask]) (ANSWER_TASK vulnerable))
         false EASY true false.

(** A vulnerable task whose type is the LOW-severity one, to get a second
    finding that is neither CRITICAL nor HIGH. *)
Definition lowTask : Task :=
  {| Task.id := "task-low";
     Task.systemName := MEDBAY;
     Task.code := "log(name);";
     Task.language := javascript;
     Task.isVulnerable := true;
     Task.vulnerabilityType := SAFE;
     Task.vulnerabilityLine := None;
     Task.explanation := None;
     Task.status := failed;
     Task.userAnswer := Some safe |}.

(** A report as the remote scanner could return it. *)
Definition scannerReport : AuditReport :=
  {| AuditReport.findings := [findingOfTask xssTask];
     AuditReport.summary := "One issue found in NAVIGATION.";
     AuditReport.audioUrl := None |}.

(** Endless mode off, nothing loaded. *)
Definition idleApp : App := App.mk initialState false EASY true false.

(** * Properties *)

#[local] Arguments calculateGameConfig : simpl never.

(** Unfolds one reducer step and splits on the tests it makes, outermost
    first. *)
Ltac reducer_cases :=
  cbn;
  repeat match goal with
  | |- context [match taskAt ?l ?i with _ => _ end] =>
      destruct (taskAt l i) eqn:?; cbn
  | |- context [if bool_decide ?P then _ else _] =>
      destruct (bool_decide_reflect P); cbn
  | |- context [if ?b then _ else _] => destruct b eqn:?; cbn
  end.

(** ** Lookups and indexed maps *)

Lemma taskAt_Some tasks i task :
  taskAt tasks i = Some task ↔ 0 ≤ i ∧ tasks !! Z.to_nat i = Some task.
Proof.
  unfold taskAt.
  destruct (bool_decide_reflect (0 ≤ i)) as [Hi | Hi]; split.
  - by split.
  - by intros [_ ?].
  - done.
  - intros [? _]. lia.
Qed.

Lemma taskAt_of_nat tasks (n : nat) : taskAt tasks (Z.of_nat n) = tasks !! n.
Proof.
  unfold taskAt. rewrite bool_decide_eq_true_2 by lia. by rewrite Nat2Z.id.
Qed.

Lemma taskAt_imap (f : nat → Task → Task) tasks i :
  taskAt (imap f tasks) i = f (Z.to_nat i) <$> taskAt tasks i.
Proof.
  unfold taskAt. case_bool_decide; [apply list_lookup_imap | done].
Qed.

(** ** The answer transition *)

Lemma is_vulnerable_answer answer :
  bool_decide (answer = vulnerable)
  = match answer with vulnerable => true | safe => false end.
Proof. by destruct answer. Qed.

Lemma is_safe_answer answer :
  bool_decide (answer = safe)
  = match answer with safe => true | vulnerable => false end.
Proof. by destruct answer. Qed.

Lemma answer_noop state answer :
  currentTask state = None →
  gameReducer state (ANSWER_TASK answer) = state.
Proof.
  unfold currentTask. intros Hnone. simpl. by rewrite Hnone.
Qed.

(** C10. When there is no task at [currentTaskIndex] (empty list, index past
    the end or negative), ANSWER_TASK returns the state itself: no field
    changes and the phase stays what it was. *)
Theorem answer_without_current_task_is_noop state answer :
  taskAt (GameState.tasks state) (GameState.currentTaskIndex state) = None →
  gameReducer state (ANSWER_TASK answer) = state.
Proof.
  apply answer_noop.
Qed.

Lemma answer_without_current_task_is_noop_witness :
  taskAt (GameState.tasks initialState) (GameState.currentTaskIndex initialState)
    = None
  ∧ gameReducer initialState (ANSWER_TASK safe) = initialState.
Proof.
  split; [reflexivity |].
  apply (answer_without_current_task_is_noop initialState safe). reflexivity.
Defined.

(** C1. Answering "vulnerable" on a current task that is safe ends the round:
    the phase becomes AUDITING, the reason is wrong_answer, the task at
    [currentTaskIndex] is that task marked failed, and [totalIncorrect] grows
    by one. Nothing is assumed about the index or the number of tasks left;
    the phase before the answer plays no part either, so this covers
    PLAYING in particular. *)
Theorem false_accusation_ends_round state task :
  taskAt (GameState.tasks state) (GameState.currentTaskIndex state) = Some task →
  Task.isVulnerable task = false →
  let state' := gameReducer state (ANSWER_TASK vulnerable) in
  let task' := Task.with_status_answer failed vulnerable task in
  GameState.phase state' = AUDITING
  ∧ GameState.gameOverReason state' = Some wrong_answer
  ∧ taskAt (GameState.tasks state') (GameState.currentTaskIndex state) = Some task'
  ∧ Task.status task' = failed
  ∧ GameState.totalIncorrect state' = GameState.totalIncorrect state + 1.
Proof.
  intros Hcur Hsafe. simpl. rewrite Hcur, Hsafe. simpl.
  repeat split.
  rewrite taskAt_imap, Hcur. simpl.
  apply taskAt_Some in Hcur as [Hnn _].
  rewrite bool_decide_eq_true_2 by lia. reflexivity.
Qed.

Lemma false_accusation_ends_round_witness :
  let state := roundOn [sqlTask; safeTask] in
  let state1 := gameReducer state (ANSWER_TASK vulnerable) in
  let state2 := gameReducer state1 (ANSWER_TASK vulnerable) in
  GameState.currentTaskIndex state1 = 1
  ∧ GameState.phase state1 = PLAYING
  ∧ GameState.phase state2 = AUDITING
  ∧ GameState.gameOverReason state2 = Some wrong_answer
  ∧ GameState.totalIncorrect state2 = 1.
Proof.
  intros state state1 state2.
  split; [reflexivity |]. split; [reflexivity |].
  destruct (false_accusation_ends_round state1
              (Task.with_status current safeTask))
    as (Hphase & Hreason & _ & _ & Hcount); [reflexivity | reflexivity |].
  split; [exact Hphase |]. split; [exact Hreason |]. exact Hcount.
Defined.

(** ** The config resolver *)

Lemma Math_floor_times_one (z : Z) : Math_floor (inject_Z z * 1) = z.
Proof.
  unfold Math_floor. rewrite (Qfloor_comp _ (inject_Z z)) by ring.
  apply Qfloor_Z.
Qed.

Lemma calculateGameConfig_timePerTask random2 difficulty factors :
  GameConfig.timePerTask (calculateGameConfig random2 difficulty factors)
  = if DifficultyFactors.affectsTimer factors
    then adjustTimer difficulty (baseTimePerTask factors)
    else baseTimePerTask factors.
Proof. reflexivity. Qed.

(** The timer budget never depends on the random draw, and is one of eight
    positive values. *)
Lemma calculateGameConfig_timePerTask_cases random2 difficulty factors :
  GameConfig.timePerTask (calculateGameConfig random2 difficulty factors)
  ∈ [10; 15; 21; 22; 30; 31; 45; 67].
Proof.
  rewrite calculateGameConfig_timePerTask.
  destruct difficulty, factors as [[] [] []]; vm_compute;
    repeat (first [apply list_elem_of_here | apply list_elem_of_further]).
Qed.

Lemma calculateGameConfig_timePerTask_nonneg random2 difficulty factors :
  0 ≤ GameConfig.timePerTask (calculateGameConfig random2 difficulty factors).
Proof.
  pose proof (calculateGameConfig_timePerTask_cases random2 difficulty factors)
    as Hin.
  repeat (apply elem_of_cons in Hin as [-> | Hin]; [lia |]).
  by apply elem_of_nil in Hin.
Qed.

(** C7. With one, two or three active factors the base time per task is 15,
    30 or 45 seconds. The resolver returns that base when [affectsTimer] is
    off, and otherwise the floor of the base times 1.5 (EASY), 1.0 (MEDIUM)
    or 0.7 (HARD); HARD with only the timer factor gives 10. *)
Theorem config_timePerTask random2 difficulty factors :
  (factorCount factors = 1 → baseTimePerTask factors = 15)
  ∧ (factorCount factors = 2 → baseTimePerTask factors = 30)
  ∧ (factorCount factors = 3 → baseTimePerTask factors = 45)
  ∧ GameConfig.timePerTask (calculateGameConfig random2 difficulty factors)
    = (if DifficultyFactors.affectsTimer factors
       then Qfloor (inject_Z (baseTimePerTask factors)
                    * specTimerMultiplier difficulty)
       else baseTimePerTask factors)
  ∧ GameConfig.timePerTask
      (calculateGameConfig random2 HARD (DifficultyFactors.mk true false false))
    = 10.
Proof.
  split_and!.
  - unfold baseTimePerTask. intros ->. reflexivity.
  - unfold baseTimePerTask. intros ->. reflexivity.
  - unfold baseTimePerTask. intros ->. reflexivity.
  - rewrite calculateGameConfig_timePerTask.
    destruct (DifficultyFactors.affectsTimer factors); [| reflexivity].
    destruct difficulty; simpl; [reflexivity | | reflexivity].
    symmetry. apply Math_floor_times_one.
  - reflexivity.
Qed.

Lemma config_timePerTask_witness :
  let one := DifficultyFactors.mk true false false in
  let two := DifficultyFactors.mk true true false in
  let three := DifficultyFactors.mk true true true in
  (factorCount one = 1 ∧ baseTimePerTask one = 15)
  ∧ (factorCount two = 2 ∧ baseTimePerTask two = 30)
  ∧ (factorCount three = 3 ∧ baseTimePerTask three = 45)
  ∧ GameConfig.timePerTask (calculateGameConfig 1 EASY three) = 67.
Proof.
  intros one two three. split_and!.
  - reflexivity.
  - apply (config_timePerTask 0 HARD one). reflexivity.
  - reflexivity.
  - apply (config_timePerTask 0 HARD two). reflexivity.
  - reflexivity.
  - apply (config_timePerTask 0 HARD three). reflexivity.
  - destruct (config_timePerTask 1 EASY three) as (_ & _ & _ & Htime & _).
    rewrite Htime. reflexivity.
Defined.

(** ** The countdown *)

(** C9. A tick takes one off [timeRemaining] and stops at 0 (a tick at 0
    leaves 0); [0 ≤ timeRemaining ≤ timePerTask] holds initially and every
    reducer action preserves it. *)
Theorem tick_and_timer_range state action :
  GameState.timeRemaining (gameReducer state TICK_TIMER)
    = Z.max 0 (GameState.timeRemaining state - 1)
  ∧ GameState.timeRemaining
      (gameReducer (GameState.with_timeRemaining 0 state) TICK_TIMER) = 0
  ∧ timerInRange initialState
  ∧ (timerInRange state → timerInRange (gameReducer state action)).
Proof.
  split_and!.
  - simpl. case_bool_decide; simpl; lia.
  - reflexivity.
  - unfold timerInRange. simpl. lia.
  - unfold timerInRange. intros Hrange.
    destruct action; reducer_cases; try lia.
    pose proof (calculateGameConfig_timePerTask_nonneg 0 difficulty factors).
    lia.
Qed.

Lemma tick_and_timer_range_witness :
  let state := roundOn [safeTask] in
  timerInRange state
  ∧ timerInRange (gameReducer state TICK_TIMER)
  ∧ GameState.timeRemaining (gameReducer state TICK_TIMER) = 29.
Proof.
  intros state.
  assert (Hrange : timerInRange state) by (unfold timerInRange; simpl; lia).
  split; [exact Hrange |]. split.
  - apply (tick_and_timer_range state TICK_TIMER). exact Hrange.
  - reflexivity.
Defined.

(** ** Score *)

(** What an answer does to the three counters, whatever branch it takes. *)
Lemma answer_counters state answer task :
  currentTask state = Some task →
  let state' := gameReducer state (ANSWER_TASK answer) in
  if isCorrect answer task
  then GameState.score state' = GameState.score state + 100
       ∧ GameState.totalCorrect state' = GameState.totalCorrect state + 1
       ∧ GameState.totalIncorrect state' = GameState.totalIncorrect state
  else GameState.score state' = GameState.score state
       ∧ GameState.totalCorrect state' = GameState.totalCorrect state
       ∧ GameState.totalIncorrect state' = GameState.totalIncorrect state + 1.
Proof.
  unfold currentTask. intros Hcur. cbn. rewrite Hcur.
  unfold isCorrect.
  rewrite !is_vulnerable_answer, !is_safe_answer.
  destruct answer, (Task.isVulnerable task); cbn;
    try case_bool_decide; cbn; done.
Qed.

(** C2, as the reducer has it. A state reached by one correct answer has
    score 100, and START_LOADING takes it back to 0: the score does go
    down when a new batch is loaded. *)
Lemma score_drops_on_start_loading :
  let state := gameReducer (roundOn [sqlTask]) (ANSWER_TASK vulnerable) in
  GameState.score state = 100
  ∧ GameState.score (gameReducer state START_LOADING) = 0
  ∧ ¬ (GameState.score state
       ≤ GameState.score (gameReducer state START_LOADING)).
Proof.
  split; [reflexivity |]. split; [reflexivity |].
  intros Hle. vm_compute in Hle. by apply Hle.
Qed.

(** C2, amended. [score = 100 * totalCorrect] holds initially and every
    action preserves it; a correct answer adds exactly 100 to the score and
    one to [totalCorrect]; an incorrect answer leaves both alone and adds
    one to [totalIncorrect]; and no action other than START_LOADING and
    RESET_GAME lowers the score, those two setting it to 0. *)
Theorem score_tracks_correct_answers state action :
  scoreInvariant initialState
  ∧ (scoreInvariant state → scoreInvariant (gameReducer state action))
  ∧ (∀ answer task,
       currentTask state = Some task →
       let state' := gameReducer state (ANSWER_TASK answer) in
       if isCorrect answer task
       then GameState.score state' = GameState.score state + 100
            ∧ GameState.totalCorrect state' = GameState.totalCorrect state + 1
            ∧ GameState.totalIncorrect state' = GameState.totalIncorrect state
       else GameState.score state' = GameState.score state
            ∧ GameState.totalCorrect state' = GameState.totalCorrect state
            ∧ GameState.totalIncorrect state'
              = GameState.totalIncorrect state + 1)
  ∧ (action ≠ START_LOADING → action ≠ RESET_GAME →
     GameState.score state ≤ GameState.score (gameReducer state action))
  ∧ GameState.score (gameReducer state START_LOADING) = 0
  ∧ GameState.score (gameReducer state RESET_GAME) = 0.
Proof.
  split_and!.
  - reflexivity.
  - unfold scoreInvariant. intros Hinv.
    destruct action; reducer_cases; lia.
  - apply answer_counters.
  - intros Hload Hreset.
    destruct action; try done; reducer_cases; lia.
  - reflexivity.
  - reflexivity.
Qed.

Lemma score_tracks_correct_answers_witness :
  let state := roundOn [sqlTask; safeTask] in
  let state1 := gameReducer state (ANSWER_TASK vulnerable) in
  let state2 := gameReducer state1 (ANSWER_TASK vulnerable) in
  scoreInvariant state
  ∧ scoreInvariant state1
  ∧ (GameState.score state1 = 100 ∧ GameState.totalCorrect state1 = 1)
  ∧ (GameState.score state2 = 100 ∧ GameState.totalCorrect state2 = 1
     ∧ GameState.totalIncorrect state2 = 1)
  ∧ GameState.score state ≤ GameState.score state1.
Proof.
  intros state state1 state2.
  assert (Hinv : scoreInvariant state) by reflexivity.
  destruct (score_tracks_correct_answers state (ANSWER_TASK vulnerable))
    as (_ & Hkeep & Hanswer & Hmono & _).
  destruct (score_tracks_correct_answers state1 (ANSWER_TASK vulnerable))
    as (_ & _ & Hanswer1 & _).
  split; [exact Hinv |].
  split; [exact (Hkeep Hinv) |].
  split.
  - destruct (Hanswer vulnerable (Task.with_status current sqlTask)
                eq_refl) as (Hscore & Hcorrect & _).
    split; [exact Hscore | exact Hcorrect].
  - split.
    + destruct (Hanswer1 vulnerable (Task.with_status current safeTask)
                  eq_refl) as (Hscore & Hcorrect & Hincorrect).
      split; [exact Hscore |]. split; [exact Hcorrect | exact Hincorrect].
    + apply Hmono; discriminate.
Defined.

(** ** The fallback audit *)

Lemma lineOrDefault_cases vulnerabilityLine :
  lineOrDefault vulnerabilityLine
  = match vulnerabilityLine with
    | Some 0 | None => 1
    | Some n => n
    end.
Proof.
  destruct vulnerabilityLine as [[| p | p] |]; reflexivity.
Qed.

(** C6, as the code has it. A vulnerable task whose recorded line is 0 gets
    a finding at line 1, not at its recorded line: [0 || 1] is [1]. *)
Lemma mock_audit_line_zero_becomes_one :
  let report := generateMockAudit (AuditRequest.mk [xssTask] javascript) in
  Task.vulnerabilityLine xssTask = Some 0
  ∧ AuditFinding.line <$> AuditReport.findings report = [1]
  ∧ AuditFinding.line <$> AuditReport.findings report
    ≠ [specLine (Task.vulnerabilityLine xssTask)].
Proof.
  split; [reflexivity |]. split; [reflexivity |].
  intros Heq. vm_compute in Heq. discriminate Heq.
Qed.

(** C6, amended. The fallback audit reports exactly the vulnerable tasks of
    the request, one finding each and in their order; a finding takes its
    severity, description and remediation from the tables at the task's
    type, its line is the task's recorded line when that is present and not
    0 and is 1 otherwise, and its column is 1. The severity table is the
    one listed. *)
Theorem mock_audit_findings request :
  let vulnerable := vulnerableTasks (AuditRequest.tasks request) in
  let findings := AuditReport.findings (generateMockAudit request) in
  length findings = length vulnerable
  ∧ (∀ i task, vulnerable !! i = Some task →
       ∃ finding, findings !! i = Some finding ∧ describes task finding)
  ∧ (∀ i finding, findings !! i = Some finding →
       ∃ task, vulnerable !! i = Some task
               ∧ Task.isVulnerable task = true
               ∧ task ∈ AuditRequest.tasks request)
  ∧ (SEVERITY_MAP XSS = HIGH
     ∧ SEVERITY_MAP SQL_INJECTION = CRITICAL
     ∧ SEVERITY_MAP RCE = CRITICAL
     ∧ SEVERITY_MAP SSRF = HIGH
     ∧ SEVERITY_MAP PATH_TRAVERSAL = HIGH
     ∧ SEVERITY_MAP COMMAND_INJECTION = CRITICAL
     ∧ SEVERITY_MAP INSECURE_DESERIALIZATION = HIGH
     ∧ SEVERITY_MAP SAFE = LOW).
Proof.
  cbn. fold (vulnerableTasks (AuditRequest.tasks request)).
  split_and!; try reflexivity.
  - apply length_fmap.
  - intros i task Hi. exists (findingOfTask task). split.
    + by rewrite list_lookup_fmap, Hi.
    + unfold describes. cbn. rewrite lineOrDefault_cases. done.
  - intros i finding Hi.
    rewrite list_lookup_fmap in Hi.
    destruct (vulnerableTasks _ !! i) as [task |] eqn:Htask; [| done].
    exists task. split; [done |].
    apply list_elem_of_lookup_2 in Htask.
    apply list_elem_of_filter in Htask as [Hvuln Hin].
    split; [by apply Is_true_true | done].
Qed.

Lemma mock_audit_findings_witness :
  let request := AuditRequest.mk [safeTask; sqlTask; xssTask] javascript in
  vulnerableTasks (AuditRequest.tasks request) !! 1%nat = Some xssTask
  ∧ (∃ finding,
      AuditReport.findings (generateMockAudit request) !! 1%nat = Some finding
      ∧ describes xssTask finding)
  ∧ AuditReport.findings (generateMockAudit request) !! 0%nat
    = Some (findingOfTask sqlTask)
  ∧ (∃ task,
      vulnerableTasks (AuditRequest.tasks request) !! 0%nat = Some task
      ∧ Task.isVulnerable task = true
      ∧ task ∈ AuditRequest.tasks request).
Proof.
  intros request. split; [reflexivity |].
  destruct (mock_audit_findings request) as (_ & Hfind & Hback & _).
  split; [apply (Hfind 1%nat xssTask); reflexivity |].
  split; [reflexivity |].
  apply (Hback 0%nat (findingOfTask sqlTask)). reflexivity.
Defined.

(** *** The summary text *)

Lemma string_append_cons ch (a b : string) :
  String ch a +:+ b = String ch (a +:+ b).
Proof. reflexivity. Qed.

Lemma string_append_assoc (a b c : string) : (a +:+ b) +:+ c = a +:+ (b +:+ c).
Proof.
  induction a as [| ch a IH]; [reflexivity |].
  by rewrite !string_append_cons, IH.
Qed.

(** Away from a CRITICAL count of exactly one, the code's text is the
    spec's. *)
Lemma mockSummary_agrees_with_spec vulnerableCount criticalCount highCount :
  criticalCount ≠ 1%nat →
  mockSummary vulnerableCount criticalCount highCount
  = specSummary vulnerableCount criticalCount highCount.
Proof.
  intros Hnot1. unfold mockSummary, specSummary.
  repeat case_bool_decide; try done;
    rewrite ?string_append_assoc; reflexivity.
Qed.

(** C4, evaluated. For one CRITICAL finding the code writes "issue require":
    the noun is singular, the verb is not. With the single SQL injection
    task, and with the spec's own example of two findings of which one is
    CRITICAL and none HIGH, the summary is the text below and does not end
    as the spec prescribes. *)
Theorem mock_summary_one_critical :
  let one := generateMockAudit (AuditRequest.mk [sqlTask] javascript) in
  let two := generateMockAudit (AuditRequest.mk [sqlTask; lowTask] javascript) in
  AuditReport.summary one
    = "Security scan detected 1 vulnerability across ship systems. 1 CRITICAL severity issue require immediate attention. Review the detailed findings below for remediation guidance."
  ∧ AuditReport.summary one ≠ specSummary 1 1 0
  ∧ AuditFinding.severity <$> AuditReport.findings two = [CRITICAL; LOW]
  ∧ AuditReport.summary two
    = "Security scan detected 2 vulnerabilities across ship systems. 1 CRITICAL severity issue require immediate attention. Review the detailed findings below for remediation guidance."
  ∧ specSummary 2 1 0
    = "Security scan detected 2 vulnerabilities across ship systems. 1 CRITICAL severity issue requires immediate attention. Review the detailed findings below for remediation guidance."
  ∧ endsWith (AuditReport.summary two)
      "detected 2 vulnerabilities across ship systems. 1 CRITICAL severity issue requires immediate attention. Review the detailed findings below for remediation guidance."
    = false.
Proof.
  split_and!; try reflexivity.
  intros Heq. vm_compute in Heq. discriminate Heq.
Qed.

(** ** What is handed to the audit *)

(** C5, as the code has it. An endless run of two tasks ends on a false
    accusation at the first one; the second, vulnerable and never reached,
    passes the spec's filter but is not handed to the audit. *)
Lemma endless_audit_leaves_out_unreached_task :
  let app := App.mk (roundOn [safeTask; xssTask]) true EASY false false in
  let app' := (handleAnswer app vulnerable).1 in
  let tasks := GameState.tasks (App.state app') in
  GameState.phase (App.state app') = AUDITING
  ∧ tasks !! 1%nat = Some xssTask
  ∧ specAuditFilter xssTask
  ∧ Task.id <$> tasksToAudit (App.endlessMode app') tasks = ["task-safe"]
  ∧ ¬ (∀ task, task ∈ tasksToAudit (App.endlessMode app') tasks
               ↔ task ∈ tasks ∧ specAuditFilter task).
Proof.
  intros app app' tasks.
  assert (Hspec : specAuditFilter xssTask).
  { right. split; [exact I | discriminate]. }
  assert (Hat : tasks !! 1%nat = Some xssTask) by (vm_compute; reflexivity).
  assert (Haudited :
    tasksToAudit (App.endlessMode app') tasks
    = [Task.with_status_answer failed vulnerable safeTask])
    by (vm_compute; reflexivity).
  split; [vm_compute; reflexivity |].
  split; [exact Hat |].
  split; [exact Hspec |].
  split; [rewrite Haudited; reflexivity |].
  intros Hall.
  assert (Hin : xssTask ∈ tasksToAudit (App.endlessMode app') tasks).
  { apply Hall. split; [| exact Hspec].
    apply (list_elem_of_lookup_2 _ 1%nat). exact Hat. }
  rewrite Haudited in Hin.
  apply list_elem_of_singleton in Hin. discriminate Hin.
Qed.

(** C5, amended. With endless mode off the audit receives the tasks that
    are failed, or vulnerable and not completed; with endless mode on it
    receives the failed tasks only. A scanner request is issued exactly when
    that list is not empty, and carries it. *)
Theorem audit_input app task :
  let tasks := GameState.tasks (App.state app) in
  let audited := tasksToAudit (App.endlessMode app) tasks in
  (task ∈ audited
   ↔ task ∈ tasks
     ∧ if App.endlessMode app
       then Task.status task = failed
       else specAuditFilter task)
  ∧ match auditRequestOf app with
    | Some request =>
        AuditRequest.tasks request = audited ∧ audited ≠ []
    | None => audited = []
    end.
Proof.
  cbn. split.
  - unfold tasksToAudit, specAuditFilter.
    destruct (App.endlessMode app); rewrite list_elem_of_filter; tauto.
  - unfold auditRequestOf. case_bool_decide as Hlen; cbn.
    + split; [done |]. intros Hnil. rewrite Hnil in Hlen. cbn in Hlen. lia.
    + destruct (tasksToAudit _ _); [done | cbn in Hlen; lia].
Qed.

Lemma audit_input_witness :
  let tasks := GameState.tasks (App.state endedApp) in
  (xssTask ∈ tasks ∧ specAuditFilter xssTask)
  ∧ xssTask ∈ tasksToAudit (App.endlessMode endedApp) tasks.
Proof.
  intros tasks.
  assert (Hin : xssTask ∈ tasks).
  { apply (list_elem_of_lookup_2 _ 1%nat). vm_compute. reflexivity. }
  assert (Hspec : specAuditFilter xssTask).
  { right. split; [exact I | discriminate]. }
  split; [exact (conj Hin Hspec) |].
  pose proof (audit_input endedApp xssTask) as Hinput.
  cbv zeta in Hinput. destruct Hinput as [[_ Hback] _].
  apply Hback. split; [exact Hin | exact Hspec].
Defined.

(** ** Endless mode *)

Lemma existsb_imap_false {A} (f : nat → A → bool) (l : list A) :
  (∀ i x, l !! i = Some x → f i x = false) →
  existsb id (imap f l) = false.
Proof.
  revert f. induction l as [| x l IH]; intros f Hall; [reflexivity |].
  cbn. rewrite (Hall 0%nat x eq_refl). cbn.
  apply IH. intros i y Hi. apply (Hall (S i) y Hi).
Qed.

Lemma previousFailed_false state :
  (∀ i task, GameState.tasks state !! i = Some task →
             Z.of_nat i ≠ GameState.currentTaskIndex state →
             Task.status task ≠ failed) →
  previousFailed state = false.
Proof.
  intros Hnone. unfold previousFailed. apply existsb_imap_false.
  intros i task Hi.
  case_bool_decide as Hidx; cbn; [reflexivity |].
  apply bool_decide_eq_false_2. by apply (Hnone i).
Qed.

(** C8. In endless mode, a correct answer on the last task of a batch in
    which no other task is failed moves the stage one step along
    EASY, MEDIUM, HARD (HARD stays HARD), starts loading, and asks the
    generator for 5 tasks at the new stage; an incorrect answer instead
    leaves the stage alone, asks for nothing and ends in AUDITING with
    reason wrong_answer. *)
Theorem endless_progression app answer task :
  App.endlessMode app = true →
  currentTask (App.state app) = Some task →
  let state := App.state app in
  let app' := (handleAnswer app answer).1 in
  let effects := (handleAnswer app answer).2 in
  (isCorrect answer task = true →
   Z.of_nat (length (GameState.tasks state)) - 1
     ≤ GameState.currentTaskIndex state →
   (∀ i other, GameState.tasks state !! i = Some other →
               Z.of_nat i ≠ GameState.currentTaskIndex state →
               Task.status other ≠ failed) →
   App.endlessStage app' = nextStage (App.endlessStage app)
   ∧ GameState.phase (App.state app') = LOADING
   ∧ ∃ request,
       effects = [Play success; GenerateSnippets request]
       ∧ GenerateSnippetsRequest.difficulty request
         = nextStage (App.endlessStage app)
       ∧ GenerateSnippetsRequest.count request = 5
       ∧ GenerateSnippetsRequest.language request = GameState.language state)
  ∧ (isCorrect answer task = false →
     App.endlessStage app' = App.endlessStage app
     ∧ effects = [Play siren]
     ∧ GameState.phase (App.state app') = AUDITING
     ∧ GameState.gameOverReason (App.state app') = Some wrong_answer)
  ∧ (nextStage EASY = MEDIUM ∧ nextStage MEDIUM = HARD ∧ nextStage HARD = HARD).
Proof.
  intros Hendless Hcur. cbn zeta. unfold handleAnswer.
  rewrite Hcur, Hendless. split_and!; try reflexivity.
  - intros Hcorrect Hlast Hothers.
    rewrite Hcorrect, (previousFailed_false _ Hothers).
    rewrite (bool_decide_eq_true_2 _ Hlast). cbn.
    split_and!; try reflexivity. eexists. split_and!; reflexivity.
  - intros Hwrong. rewrite Hwrong. cbn. split_and!; reflexivity.
Qed.

Lemma endless_progression_witness :
  let escalated := (handleAnswer endlessApp vulnerable).1 in
  let stopped := (handleAnswer endlessApp safe).1 in
  (App.endlessStage escalated = nextStage (App.endlessStage endlessApp)
   ∧ GameState.phase (App.state escalated) = LOADING)
  ∧ (App.endlessStage stopped = App.endlessStage endlessApp
     ∧ GameState.phase (App.state stopped) = AUDITING).
Proof.
  intros escalated stopped.
  assert (Hcur : currentTask (App.state endlessApp)
                 = Some (Task.with_status current sqlTask)) by reflexivity.
  split.
  - pose proof (endless_progression endlessApp vulnerable _ eq_refl Hcur)
      as Hthm.
    cbv zeta in Hthm. destruct Hthm as (Hcorrect & _ & _).
    destruct Hcorrect as (Hstage & Hphase & _).
    + reflexivity.
    + vm_compute. discriminate.
    + intros [| i] other Hother Hindex.
      * exfalso. apply Hindex. reflexivity.
      * discriminate Hother.
    + split; [exact Hstage | exact Hphase].
  - pose proof (endless_progression endlessApp safe _ eq_refl Hcur) as Hthm.
    cbv zeta in Hthm. destruct Hthm as (_ & Hwrong & _).
    destruct Hwrong as (Hstage & _ & Hphase & _); [reflexivity |].
    split; [exact Hstage | exact Hphase].
Defined.

(** ** Counting finished tasks *)

Lemma doneCount_cons task tasks :
  doneCount (task :: tasks)
  = (if isDone task then 1 else 0) + doneCount tasks.
Proof.
  unfold doneCount. rewrite filter_cons.
  destruct (isDone task); case_decide; try done; cbn [length]; lia.
Qed.

Lemma doneCount_bounds tasks : 0 ≤ doneCount tasks ≤ Z.of_nat (length tasks).
Proof.
  induction tasks as [| task tasks IH]; [done |].
  rewrite doneCount_cons. cbn [length]. destruct (isDone task); lia.
Qed.

Lemma isDone_with_status st task :
  isDone (Task.with_status st task)
  = match st with completed | failed => true | _ => false end.
Proof. by destruct st. Qed.

Lemma isDone_with_status_answer st answer task :
  isDone (Task.with_status_answer st answer task)
  = match st with completed | failed => true | _ => false end.
Proof. by destruct st. Qed.

(** An indexed map that keeps every task as finished or unfinished as it
    was keeps the count. *)
Lemma doneCount_imap_same (f : nat → Task → Task) tasks :
  (∀ i task, tasks !! i = Some task → isDone (f i task) = isDone task) →
  doneCount (imap f tasks) = doneCount tasks.
Proof.
  revert f. induction tasks as [| task tasks IH]; intros f Hsame; [done |].
  rewrite imap_cons, !doneCount_cons.
  rewrite (Hsame 0%nat task eq_refl). f_equal.
  apply IH. intros i other Hi. apply (Hsame (S i) other Hi).
Qed.

(** An indexed map that finishes the unfinished task at [k] and keeps the
    others as they were adds one to the count. *)
Lemma doneCount_imap_mark (f : nat → Task → Task) tasks k task :
  tasks !! k = Some task →
  isDone task = false →
  isDone (f k task) = true →
  (∀ i other, tasks !! i = Some other → i ≠ k →
              isDone (f i other) = isDone other) →
  doneCount (imap f tasks) = doneCount tasks + 1.
Proof.
  revert f k. induction tasks as [| head tasks IH];
    intros f k Hk Hbefore Hafter Hothers; [done |].
  rewrite imap_cons, !doneCount_cons.
  destruct k as [| k]; cbn in Hk.
  - injection Hk as ->. rewrite Hbefore, Hafter.
    rewrite doneCount_imap_same; [lia |].
    intros i other Hi. apply (Hothers (S i) other Hi). lia.
  - rewrite (Hothers 0%nat head eq_refl) by lia.
    rewrite (IH (f ∘ S) k Hk Hbefore Hafter); [lia |].
    intros i other Hi Hne. apply (Hothers (S i) other Hi). lia.
Qed.

Lemma roundInv_initial : roundInv initialState.
Proof. by constructor. Qed.

(** A step that leaves tasks, index and counters alone, and either keeps
    the phase or moves to one that is neither LOADING nor PLAYING. *)
Lemma roundInv_frame state state' :
  GameState.tasks state' = GameState.tasks state →
  GameState.currentTaskIndex state' = GameState.currentTaskIndex state →
  answeredCount state' = answeredCount state →
  GameState.phase state' = GameState.phase state
  ∨ (GameState.phase state' ≠ LOADING ∧ GameState.phase state' ≠ PLAYING) →
  roundInv state → roundInv state'.
Proof.
  intros Htasks Hindex Hcount Hphase [Hahead Hcur Hload Hlive Hgap].
  unfold currentTask in *.
  constructor; unfold currentTask; rewrite ?Htasks, ?Hindex, ?Hcount;
    try done; destruct Hphase as [-> | [? ?]]; try done;
    intros; intuition congruence.
Qed.

Lemma doneCount_imap_none (f : nat → Task → Task) tasks :
  (∀ i task, tasks !! i = Some task → isDone (f i task) = false) →
  doneCount (imap f tasks) = 0.
Proof.
  revert f. induction tasks as [| task tasks IH]; intros f Hnone; [done |].
  rewrite imap_cons, doneCount_cons, (Hnone 0%nat task eq_refl).
  rewrite IH; [done |].
  intros i other Hi. apply (Hnone (S i) other Hi).
Qed.

Lemma doneCount_loaded payload :
  doneCount
    (imap (λ index task,
             Task.with_status
               (if bool_decide (index = 0%nat) then current else pending) task)
          payload) = 0.
Proof.
  apply doneCount_imap_none. intros i task _.
  rewrite isDone_with_status. by case_bool_decide.
Qed.

Lemma lookup_loaded payload i task :
  imap (λ index task,
          Task.with_status
            (if bool_decide (index = 0%nat) then current else pending) task)
       payload !! i = Some task →
  isDone task = false.
Proof.
  rewrite list_lookup_imap. destruct (payload !! i); [| done].
  cbn. intros [= <-]. rewrite isDone_with_status. by case_bool_decide.
Qed.

(** The task list after an answer: an indexed map of the old one that
    finishes the current task and keeps every other task as it was, given
    that the tasks ahead are unfinished. *)
Lemma answer_tasks state answer cur :
  currentTask state = Some cur →
  ∃ f : nat → Task → Task,
    GameState.tasks (gameReducer state (ANSWER_TASK answer))
      = imap f (GameState.tasks state)
    ∧ isDone (f (Z.to_nat (GameState.currentTaskIndex state)) cur) = true
    ∧ (∀ i task,
         Z.of_nat i ≠ GameState.currentTaskIndex state →
         (GameState.currentTaskIndex state < Z.of_nat i → isDone task = false) →
         isDone (f i task) = isDone task)
    ∧ (∀ i task,
         Z.of_nat i = GameState.currentTaskIndex state + 1 →
         GameState.phase (gameReducer state (ANSWER_TASK answer)) ≠ AUDITING →
         isDone (f i task) = false).
Proof.
  unfold currentTask. intros Hcur.
  pose proof (proj1 (taskAt_Some _ _ _) Hcur) as [Hnn _].
  cbn. rewrite Hcur.
  destruct (bool_decide (answer = vulnerable) && negb (Task.isVulnerable cur)).
  - eexists. split; [reflexivity |]. cbn. split_and!.
    + rewrite bool_decide_eq_true_2 by lia. apply isDone_with_status_answer.
    + intros i task Hne _. by rewrite bool_decide_eq_false_2.
    + intros i task _ Hphase. done.
  - eexists. split; [by repeat case_bool_decide |]. cbn. split_and!.
    + rewrite bool_decide_eq_true_2 by lia.
      rewrite isDone_with_status_answer. by destruct (isCorrect answer cur).
    + intros i task Hne Hahead. rewrite bool_decide_eq_false_2 by done.
      case_bool_decide; [| done].
      rewrite isDone_with_status. symmetry. apply Hahead. lia.
    + intros i task Hi _. rewrite bool_decide_eq_false_2 by lia.
      rewrite bool_decide_eq_true_2 by done. apply isDone_with_status.
Qed.

(** Where an answer leaves the phase and the index: the round ends on the
    spot, or play goes on at the next index. *)
Lemma answer_phase_index state answer cur :
  currentTask state = Some cur →
  let state' := gameReducer state (ANSWER_TASK answer) in
  (GameState.phase state' = AUDITING
   ∧ GameState.currentTaskIndex state' = GameState.currentTaskIndex state)
  ∨ (GameState.phase state' = GameState.phase state
     ∧ GameState.currentTaskIndex state'
       = GameState.currentTaskIndex state + 1).
Proof.
  unfold currentTask. intros Hcur. cbn. rewrite Hcur.
  destruct (bool_decide (answer = vulnerable) && negb (Task.isVulnerable cur));
    [by left |].
  case_bool_decide; [by left | by right].
Qed.

Lemma answer_answeredCount state answer cur :
  currentTask state = Some cur →
  answeredCount (gameReducer state (ANSWER_TASK answer))
  = answeredCount state + 1.
Proof.
  intros Hcur. pose proof (answer_counters state answer cur Hcur) as Hcount.
  cbn zeta in Hcount. unfold answeredCount.
  destruct (isCorrect answer cur); lia.
Qed.

Lemma roundInv_answer state answer :
  GameState.phase state = PLAYING →
  roundInv state →
  roundInv (gameReducer state (ANSWER_TASK answer))
  ∧ doneCount (GameState.tasks (gameReducer state (ANSWER_TASK answer)))
    = answeredCount (gameReducer state (ANSWER_TASK answer)).
Proof.
  intros Hphase Hinv.
  destruct (currentTask state) as [cur |] eqn:Hcur.
  2: { rewrite answer_noop by done.
       split; [done |]. apply (inv_live _ Hinv). by right. }
  destruct Hinv as [Hahead Hcurrent Hload Hlive Hgap].
  pose proof (Hcurrent cur (or_intror Hphase) Hcur) as Hopen.
  pose proof (proj1 (taskAt_Some _ _ _) Hcur) as [Hnn Hlookup].
  destruct (answer_tasks state answer cur Hcur)
    as (f & Htasks & Hmark & Hothers & Hnext).
  pose proof (answer_answeredCount state answer cur Hcur) as Hcount.
  assert (Hdone :
    doneCount (GameState.tasks (gameReducer state (ANSWER_TASK answer)))
    = answeredCount (gameReducer state (ANSWER_TASK answer))).
  { rewrite Htasks, Hcount, <- Hlive by (by right).
    apply (doneCount_imap_mark f _ _ cur Hlookup Hopen Hmark).
    intros i other Hi Hne. apply Hothers; [lia |].
    intros Hlt. by apply (Hahead i). }
  split; [| exact Hdone].
  assert (Hkept : ∀ i task,
    GameState.tasks (gameReducer state (ANSWER_TASK answer)) !! i = Some task →
    GameState.currentTaskIndex state < Z.of_nat i →
    ∃ other, GameState.tasks state !! i = Some other
             ∧ task = f i other ∧ isDone task = false).
  { intros i task Hi Hlt. rewrite Htasks in Hi.
    apply list_lookup_imap_Some in Hi as (other & Hother & ->).
    exists other. split_and!; [done | done |].
    rewrite Hothers; [| lia | intros _]; by apply (Hahead i). }
  destruct (answer_phase_index state answer cur Hcur)
    as [[Hphase' Hindex'] | [Hphase' Hindex']]; cbn zeta in *.
  - constructor; rewrite ?Hphase', ?Hindex'.
    + intros i task Hi Hlt.
      by destruct (Hkept i task Hi Hlt) as (? & _ & _ & ?).
    + by intros task [? | ?].
    + done.
    + by intros [? | ?].
    + lia.
  - constructor; unfold currentTask; rewrite ?Hphase', ?Hindex'.
    + intros i task Hi Hlt.
      destruct (Hkept i task Hi) as (? & _ & _ & ?); [lia | done].
    + intros task _ Hat.
      apply taskAt_Some in Hat as [_ Hat].
      rewrite Htasks in Hat.
      apply list_lookup_imap_Some in Hat as (other & _ & ->).
      apply Hnext; [lia |]. rewrite Hphase', Hphase. done.
    + rewrite Hphase. done.
    + done.
    + lia.
Qed.

Lemma roundInv_next state :
  roundInv state →
  roundInv (gameReducer state NEXT_TASK)
  ∧ doneCount (GameState.tasks (gameReducer state NEXT_TASK))
    = doneCount (GameState.tasks state).
Proof.
  intros Hinv. cbn. case_bool_decide as Hend.
  - split; [| done]. apply (roundInv_frame state); try done.
    right. by split.
  - destruct Hinv as [Hahead Hcurrent Hload Hlive Hgap].
    assert (Hsame : ∀ i task,
      GameState.tasks state !! i = Some task →
      isDone (if bool_decide
                   (Z.of_nat i = GameState.currentTaskIndex state + 1)
              then Task.with_status current task else task)
      = isDone task).
    { intros i task Hi. case_bool_decide; [| done].
      rewrite isDone_with_status. symmetry. apply (Hahead i task Hi). lia. }
    pose proof (doneCount_imap_same _ _ Hsame) as Hcount.
    split; [| exact Hcount].
    constructor; unfold currentTask, answeredCount in *; cbn;
      rewrite ?Hcount; try done.
    + intros i task Hi Hlt.
      apply list_lookup_imap_Some in Hi as (other & Hother & ->).
      rewrite (Hsame i other Hother). apply (Hahead i other Hother). lia.
    + intros task _ Hat. apply taskAt_Some in Hat as [Hnn Hat].
      apply list_lookup_imap_Some in Hat as (other & _ & ->).
      rewrite bool_decide_eq_true_2 by lia. apply isDone_with_status.
Qed.

Lemma roundInv_time_up state :
  GameState.phase state = PLAYING →
  roundInv state →
  roundInv (gameReducer state TIME_UP)
  ∧ doneCount (GameState.tasks (gameReducer state TIME_UP))
    = answeredCount (gameReducer state TIME_UP)
      + match currentTask state with Some _ => 1 | None => 0 end.
Proof.
  intros Hphase [Hahead Hcurrent Hload Hlive Hgap].
  specialize (Hlive (or_intror Hphase)).
  assert (Hcount :
    doneCount (GameState.tasks (gameReducer state TIME_UP))
    = doneCount (GameState.tasks state)
      + match currentTask state with Some _ => 1 | None => 0 end).
  { cbn. destruct (currentTask state) as [cur |] eqn:Hcur.
    - pose proof (proj1 (taskAt_Some _ _ _) Hcur) as [Hnn Hlookup].
      apply (doneCount_imap_mark _ _ _ cur Hlookup).
      + apply (Hcurrent cur); [by right | done].
      + rewrite bool_decide_eq_true_2 by lia. apply isDone_with_status.
      + intros i other _ Hne. rewrite bool_decide_eq_false_2; [done | lia].
    - rewrite Z.add_0_r. apply doneCount_imap_same.
      intros i task Hi. case_bool_decide as Hidx; [| done].
      unfold currentTask in Hcur. rewrite <- Hidx, taskAt_of_nat in Hcur.
      congruence. }
  split; [| rewrite Hcount, Hlive; reflexivity].
  constructor; unfold answeredCount in *; try done.
  - cbn. intros i task Hi Hlt.
    apply list_lookup_imap_Some in Hi as (other & Hother & ->).
    rewrite bool_decide_eq_false_2 by lia. by apply (Hahead i).
  - by intros task [? | ?].
  - by intros [? | ?].
  - rewrite Hcount. cbn. destruct (currentTask state); lia.
Qed.

Lemma roundInv_load state payload :
  GameState.phase state = LOADING →
  roundInv state →
  roundInv (gameReducer state (LOAD_TASKS payload))
  ∧ doneCount (GameState.tasks (gameReducer state (LOAD_TASKS payload)))
    = answeredCount (gameReducer state (LOAD_TASKS payload)).
Proof.
  intros Hphase [_ _ Hload _ _]. destruct (Hload Hphase) as [Hzero _].
  assert (Hcount :
    doneCount (GameState.tasks (gameReducer state (LOAD_TASKS payload)))
    = answeredCount (gameReducer state (LOAD_TASKS payload))).
  { cbn. rewrite doneCount_loaded. symmetry. exact Hzero. }
  split; [| exact Hcount].
  constructor; unfold currentTask.
  - cbn. intros i task Hi _. by apply (lookup_loaded payload i).
  - cbn. intros task _ Hat. apply taskAt_Some in Hat as [_ Hat].
    by apply (lookup_loaded payload _ _ Hat).
  - cbn. intros _. split; [exact Hzero | apply doneCount_loaded].
  - intros _. exact Hcount.
  - rewrite Hcount. lia.
Qed.

Lemma roundInv_start_playing state :
  GameState.phase state = LOADING →
  roundInv state →
  roundInv (gameReducer state START_PLAYING).
Proof.
  intros Hphase [Hahead Hcurrent Hload Hlive Hgap].
  constructor; cbn; try done.
  - intros task _. apply Hcurrent. by left.
  - intros _. apply Hlive. by left.
Qed.

(** One step of a round: the invariant is kept, and so is the equality of
    the two counts unless the step is TIME_UP. *)
Lemma roundInv_step state action :
  dispatchedInPhase state action = true →
  roundInv state →
  roundInv (gameReducer state action)
  ∧ (action ≠ TIME_UP →
     doneCount (GameState.tasks state) = answeredCount state →
     doneCount (GameState.tasks (gameReducer state action))
     = answeredCount (gameReducer state action)).
Proof.
  intros Hguard Hinv.
  destruct action; cbn in Hguard;
    try apply bool_decide_eq_true_1 in Hguard.
  - split; [| done]. apply (roundInv_frame state); try done.
    right. by split.
  - split; [| done]. apply (roundInv_frame state); by try left.
  - split; [| done]. apply (roundInv_frame state); by try left.
  - split; [| done]. by constructor.
  - destruct (roundInv_load state payload Hguard Hinv). by split.
  - split; [| done]. by apply roundInv_start_playing.
  - destruct (roundInv_answer state answer Hguard Hinv). by split.
  - destruct (roundInv_next state Hinv) as [Hnext Hcount].
    split; [done |]. intros _ Heq. rewrite Hcount, Heq.
    unfold answeredCount. cbn. by case_bool_decide.
  - cbn. case_bool_decide;
      (split; [apply (roundInv_frame state); by try left | done]).
  - destruct (roundInv_time_up state Hguard Hinv). by split.
  - split; [| done]. apply (roundInv_frame state); try done.
    right. by split.
  - split; [| done]. apply (roundInv_frame state); try done.
    right. by split.
  - split; [| done]. apply (roundInv_frame state); by try left.
  - split; [| done]. apply (roundInv_frame state); try done.
    right. by split.
  - split; [| done]. apply roundInv_initial.
Qed.

Lemma dispatchInPhase_roundInv actions : ∀ state state',
  roundInv state →
  dispatchInPhase state actions = Some state' →
  roundInv state'
  ∧ (noTimeUp actions = true →
     doneCount (GameState.tasks state) = answeredCount state →
     doneCount (GameState.tasks state') = answeredCount state').
Proof.
  induction actions as [| action actions IH]; intros state state' Hinv Hrun.
  - injection Hrun as <-. by split.
  - cbn in Hrun.
    destruct (dispatchedInPhase state action) eqn:Hguard; [| done].
    destruct (roundInv_step state action Hguard Hinv) as [Hinv' Hkeep].
    destruct (IH _ _ Hinv' Hrun) as [Hend Hrest].
    split; [exact Hend |].
    intros Hnone Heq. cbn in Hnone.
    apply andb_true_iff in Hnone as [Hhead Htail].
    apply Hrest; [exact Htail |].
    apply Hkeep; [| exact Heq]. intros ->. discriminate Hhead.
Qed.

(** C3, as the reducer has it. After a timeout on the first task of a round
    no answer is counted and one task is failed, so the two counts differ;
    the actions of this run all come in their phases. And when ANSWER_TASK
    is dispatched again after the round has ended, the reducer counts it
    again: two answers for one task. *)
Lemma time_up_is_not_counted :
  let timedOut := [START_LOADING; LOAD_TASKS [sqlTask]; START_PLAYING; TIME_UP] in
  let twice := [START_LOADING; LOAD_TASKS [sqlTask]; START_PLAYING;
                ANSWER_TASK vulnerable; ANSWER_TASK vulnerable] in
  (dispatchInPhase initialState timedOut
     = Some (dispatchAll initialState timedOut)
   ∧ answeredCount (dispatchAll initialState timedOut) = 0
   ∧ doneCount (GameState.tasks (dispatchAll initialState timedOut)) = 1
   ∧ answeredCount (dispatchAll initialState timedOut)
     ≠ doneCount (GameState.tasks (dispatchAll initialState timedOut)))
  ∧ (answeredCount (dispatchAll initialState twice) = 2
     ∧ length (GameState.tasks (dispatchAll initialState twice)) = 1%nat
     ∧ ¬ (answeredCount (dispatchAll initialState twice)
          ≤ Z.of_nat
              (length (GameState.tasks (dispatchAll initialState twice))))).
Proof.
  cbn zeta. split_and!; try (vm_compute; reflexivity).
  - intros Heq. vm_compute in Heq. discriminate Heq.
  - intros Hle. vm_compute in Hle. by apply Hle.
Qed.

(** C3, amended. Along any run from the initial state in which the actions
    come in their phases, [totalCorrect + totalIncorrect] is at most the
    number of tasks and at most the number of completed or failed tasks,
    which exceeds it by at most one. The two are equal while the phase is
    LOADING or PLAYING, and at the end of any run without TIME_UP. TIME_UP
    on a current task marks it failed and counts nothing: right after it
    the number of completed or failed tasks is one more than the sum. *)
Theorem answered_and_done_counts actions state :
  dispatchInPhase initialState actions = Some state →
  answeredCount state ≤ Z.of_nat (length (GameState.tasks state))
  ∧ answeredCount state ≤ doneCount (GameState.tasks state)
                        ≤ answeredCount state + 1
  ∧ (GameState.phase state = LOADING ∨ GameState.phase state = PLAYING →
     doneCount (GameState.tasks state) = answeredCount state)
  ∧ (noTimeUp actions = true →
     doneCount (GameState.tasks state) = answeredCount state)
  ∧ (GameState.phase state = PLAYING → is_Some (currentTask state) →
     doneCount (GameState.tasks (gameReducer state TIME_UP))
     = answeredCount (gameReducer state TIME_UP) + 1).
Proof.
  intros Hrun.
  destruct (dispatchInPhase_roundInv actions _ _ roundInv_initial Hrun)
    as [Hinv Hequal].
  pose proof (doneCount_bounds (GameState.tasks state)) as Hbound.
  pose proof (inv_gap _ Hinv) as Hgap.
  split_and!; try lia.
  - apply (inv_live _ Hinv).
  - intros Hnone. by apply Hequal.
  - intros Hphase [cur Hcur].
    destruct (roundInv_time_up state Hphase Hinv) as [_ Hcount].
    by rewrite Hcur in Hcount.
Qed.

Lemma answered_and_done_counts_witness :
  let actions := [START_LOADING; LOAD_TASKS [sqlTask; safeTask];
                  START_PLAYING; ANSWER_TASK vulnerable] in
  let state := dispatchAll initialState actions in
  dispatchInPhase initialState actions = Some state
  ∧ (GameState.phase state = PLAYING
     ∧ doneCount (GameState.tasks state) = answeredCount state)
  ∧ (noTimeUp actions = true
     ∧ doneCount (GameState.tasks state) = answeredCount state)
  ∧ (is_Some (currentTask state)
     ∧ doneCount (GameState.tasks (gameReducer state TIME_UP))
       = answeredCount (gameReducer state TIME_UP) + 1)
  ∧ answeredCount state ≤ Z.of_nat (length (GameState.tasks state)).
Proof.
  intros actions state.
  assert (Hrun : dispatchInPhase initialState actions = Some state)
    by (vm_compute; reflexivity).
  assert (Hphase : GameState.phase state = PLAYING)
    by (vm_compute; reflexivity).
  assert (Hnone : noTimeUp actions = true) by (vm_compute; reflexivity).
  assert (Hcur : is_Some (currentTask state))
    by (eexists; vm_compute; reflexivity).
  destruct (answered_and_done_counts actions state Hrun)
    as (Hle & _ & Hlive & Hequal & Htimeout).
  split; [exact Hrun |].
  split; [exact (conj Hphase (Hlive (or_intror Hphase))) |].
  split; [exact (conj Hnone (Hequal Hnone)) |].
  split; [exact (conj Hcur (Htimeout Hphase Hcur)) |].
  exact Hle.
Defined.

(** * Further properties of the code *)

(** ** The config resolver, all outputs *)

(** X1. Whatever the difficulty and the factors, and for either value of
    the random draw, the resolver asks for 3 to 7 tasks and allows 10 to 67
    seconds per task. *)
Theorem config_bounds random2 difficulty factors :
  0 ≤ random2 ≤ 1 →
  let config := calculateGameConfig random2 difficulty factors in
  3 ≤ GameConfig.taskCount config ≤ 7
  ∧ 10 ≤ GameConfig.timePerTask config ≤ 67.
Proof.
  intros Hdraw. assert (random2 = 0 ∨ random2 = 1) as [-> | ->] by lia;
    destruct difficulty, factors as [[] [] []]; vm_compute;
    repeat split; discriminate.
Qed.

Lemma config_bounds_witness :
  0 ≤ 1 ≤ 1
  ∧ 3 ≤ GameConfig.taskCount
         (calculateGameConfig 1 HARD (DifficultyFactors.mk true true true)) ≤ 7.
Proof.
  assert (Hdraw : 0 ≤ 1 ≤ 1) by lia.
  split; [exact Hdraw |].
  exact (proj1 (config_bounds 1 HARD (DifficultyFactors.mk true true true)
                  Hdraw)).
Defined.

(** X2. For fixed factors a harder difficulty never gives more time per
    task, fewer tasks or a lower complexity level, whatever the random
    draws of the two calls. *)
Theorem config_monotone random2 random2' difficulty difficulty' factors :
  0 ≤ random2 ≤ 1 → 0 ≤ random2' ≤ 1 →
  difficultyRank difficulty ≤ difficultyRank difficulty' →
  let easier := calculateGameConfig random2 difficulty factors in
  let harder := calculateGameConfig random2' difficulty' factors in
  GameConfig.timePerTask harder ≤ GameConfig.timePerTask easier
  ∧ (difficulty ≠ difficulty' →
     GameConfig.taskCount easier ≤ GameConfig.taskCount harder)
  ∧ complexityRank (GameConfig.complexityLevel easier)
    ≤ complexityRank (GameConfig.complexityLevel harder).
Proof.
  intros Hdraw Hdraw' Hrank.
  assert (random2 = 0 ∨ random2 = 1) as [-> | ->] by lia;
    assert (random2' = 0 ∨ random2' = 1) as [-> | ->] by lia;
    destruct difficulty, difficulty'; try (vm_compute in Hrank; done);
    destruct factors as [[] [] []]; vm_compute;
    repeat split; try discriminate; done.
Qed.

Lemma config_monotone_witness :
  let factors := DifficultyFactors.mk true true true in
  GameConfig.timePerTask (calculateGameConfig 0 HARD factors)
    ≤ GameConfig.timePerTask (calculateGameConfig 1 EASY factors)
  ∧ GameConfig.taskCount (calculateGameConfig 1 EASY factors)
    ≤ GameConfig.taskCount (calculateGameConfig 0 HARD factors).
Proof.
  intros factors.
  assert (H0 : 0 ≤ 0 ≤ 1) by lia. assert (H1 : 0 ≤ 1 ≤ 1) by lia.
  assert (Hrank : difficultyRank EASY ≤ difficultyRank HARD)
    by (vm_compute; discriminate).
  pose proof (config_monotone 1 0 EASY HARD factors H1 H0 Hrank) as Hthm.
  cbv zeta in Hthm. destruct Hthm as (Htime & Hcount & _).
  split; [exact Htime |]. apply Hcount. discriminate.
Defined.

(** X3. The difficulty shows in the config exactly when some factor is
    active: with no factor every difficulty gives 5 tasks, 45 seconds and
    the basic level; with at least one factor two different difficulties
    never give the same config, whatever the random draws. *)
Theorem config_difficulty_matters random2 random2' difficulty difficulty' factors :
  0 ≤ random2 ≤ 1 → 0 ≤ random2' ≤ 1 →
  (factorCount factors = 0 →
   calculateGameConfig random2 difficulty factors = GameConfig.mk 5 45 basic)
  ∧ (factorCount factors ≠ 0 → difficulty ≠ difficulty' →
     calculateGameConfig random2 difficulty factors
     ≠ calculateGameConfig random2' difficulty' factors).
Proof.
  intros Hdraw Hdraw'.
  assert (random2 = 0 ∨ random2 = 1) as [-> | ->] by lia;
    assert (random2' = 0 ∨ random2' = 1) as [-> | ->] by lia;
    destruct factors as [[] [] []]; (split; [| intros Hsome Hne]);
    try (intros Hnone; vm_compute in Hnone; discriminate Hnone);
    try (exfalso; apply Hsome; reflexivity);
    try (intros _; by destruct difficulty);
    destruct difficulty, difficulty'; try done;
    intros Heq; vm_compute in Heq; discriminate Heq.
Qed.

Lemma config_difficulty_matters_witness :
  let none := DifficultyFactors.mk false false false in
  let timer := DifficultyFactors.mk true false false in
  calculateGameConfig 1 HARD none = GameConfig.mk 5 45 basic
  ∧ calculateGameConfig 0 EASY timer ≠ calculateGameConfig 0 HARD timer.
Proof.
  intros none timer.
  assert (H0 : 0 ≤ 0 ≤ 1) by lia. assert (H1 : 0 ≤ 1 ≤ 1) by lia.
  split.
  - apply (config_difficulty_matters 1 0 HARD EASY none H1 H0). reflexivity.
  - apply (config_difficulty_matters 0 0 EASY HARD timer H0 H0);
      [vm_compute | ]; discriminate.
Defined.

(** ** The derived values of the hook *)

(** X4. In any state every task is counted once by the hook's three
    derived lists: completed, failed, and pending or current. *)
Theorem derived_lists_partition state :
  (completedTasks state + length (failedTasks state)
   + length (pendingTasks state))%nat
  = length (GameState.tasks state).
Proof.
  unfold completedTasks, failedTasks, pendingTasks.
  induction (GameState.tasks state) as [| task tasks IH]; [reflexivity |].
  rewrite !filter_cons. cbn [length]. rewrite <- IH.
  destruct (Task.status task) eqn:Hstatus;
    repeat case_decide; cbn [length]; try lia; try congruence;
    exfalso; intuition congruence.
Qed.

(** ** The report view *)

Lemma insertBy_here {A} (compare : A → A → Z) x l :
  Forall (λ y, compare x y ≤ 0) l →
  insertBy compare x l = x :: l.
Proof.
  intros Hall. destruct l as [| y l]; [reflexivity |].
  apply Forall_cons in Hall as [Hy _].
  cbn. by rewrite bool_decide_eq_true_2.
Qed.

Lemma insertBy_skip {A} (compare : A → A → Z) x l1 l2 :
  Forall (λ y, 0 < compare x y) l1 →
  insertBy compare x (l1 ++ l2) = l1 ++ insertBy compare x l2.
Proof.
  induction 1 as [| y l1 Hy _ IH]; [reflexivity |].
  cbn. rewrite bool_decide_eq_false_2 by lia. by rewrite IH.
Qed.

Lemma withSeverity_compare severity finding findings :
  Forall (λ other,
            compareSeverity finding other
            = indexOf (AuditFinding.severity finding) SEVERITY_ORDER
              - indexOf severity SEVERITY_ORDER)
         (withSeverity severity findings).
Proof.
  apply Forall_forall. intros other Hin.
  apply list_elem_of_filter in Hin as [Hsev _].
  unfold compareSeverity. by rewrite Hsev.
Qed.

(** Settles a side condition on the comparator against one severity
    group, from the group's fact in the context. *)
Ltac severity_side :=
  eapply Forall_impl;
    [eassumption
    | intros ? ->; vm_compute; first [reflexivity | discriminate]].

Lemma withSeverity_cons severity finding findings :
  withSeverity severity (finding :: findings)
  = if bool_decide (AuditFinding.severity finding = severity)
    then finding :: withSeverity severity findings
    else withSeverity severity findings.
Proof.
  unfold withSeverity. rewrite filter_cons.
  case_decide;
    [rewrite bool_decide_eq_true_2 | rewrite bool_decide_eq_false_2]; done.
Qed.

(** X5. The report view lists all CRITICAL findings first, then the HIGH,
    the MEDIUM and the LOW ones, and within each severity keeps the order
    the report gave them: nothing is lost, added or reordered otherwise. *)
Theorem sortedFindings_by_severity report :
  sortedFindings (Some report)
  = withSeverity CRITICAL (AuditReport.findings report)
    ++ withSeverity HIGH (AuditReport.findings report)
    ++ withSeverity MEDIUM_SEVERITY (AuditReport.findings report)
    ++ withSeverity LOW (AuditReport.findings report).
Proof.
  cbn. induction (AuditReport.findings report) as [| finding findings IH];
    [reflexivity |].
  cbn [sortBy foldr]. fold (sortBy compareSeverity findings). rewrite IH.
  rewrite !withSeverity_cons.
  pose proof (withSeverity_compare CRITICAL finding findings) as Hcritical.
  pose proof (withSeverity_compare HIGH finding findings) as Hhigh.
  pose proof (withSeverity_compare MEDIUM_SEVERITY finding findings) as Hmedium.
  pose proof (withSeverity_compare LOW finding findings) as Hlow.
  destruct (AuditFinding.severity finding);
    repeat (first [rewrite bool_decide_eq_true_2 by done
                  | rewrite bool_decide_eq_false_2 by done]).
  - rewrite !(insertBy_skip compareSeverity finding (withSeverity _ _))
      by severity_side.
    rewrite insertBy_here; [done |]. severity_side.
  - rewrite !(insertBy_skip compareSeverity finding (withSeverity _ _))
      by severity_side.
    rewrite insertBy_here; [done |].
    apply Forall_app. split; severity_side.
  - rewrite (insertBy_skip compareSeverity finding (withSeverity _ _))
      by severity_side.
    rewrite insertBy_here; [done |].
    repeat (apply Forall_app; split); severity_side.
  - rewrite insertBy_here; [done |].
    repeat (apply Forall_app; split); severity_side.
Qed.

Lemma countTasks_cons test task tasks :
  countTasks test (task :: tasks)
  = (if test task then 1 else 0) + countTasks test tasks.
Proof.
  unfold countTasks. rewrite filter_cons.
  destruct (test task); case_decide; try done; cbn [length]; lia.
Qed.

Lemma countTasks_nonneg test tasks : 0 ≤ countTasks test tasks.
Proof. unfold countTasks. lia. Qed.

Lemma countTasks_le test test' tasks :
  (∀ task, test task = true → test' task = true) →
  countTasks test tasks ≤ countTasks test' tasks.
Proof.
  intros Himpl. induction tasks as [| task tasks IH]; [done |].
  rewrite !countTasks_cons. specialize (Himpl task).
  destruct (test task), (test' task); try lia.
Qed.

Lemma countTasks_vulnerable test tasks :
  countTasks test (filter (λ task, Is_true (Task.isVulnerable task)) tasks)
  = countTasks (λ task, Task.isVulnerable task && test task) tasks.
Proof.
  induction tasks as [| task tasks IH]; [done |].
  rewrite filter_cons, countTasks_cons.
  destruct (Task.isVulnerable task); case_decide; try done; cbn;
    rewrite ?countTasks_cons, IH; done.
Qed.

(** The [reduce] over any list, from any accumulator. *)
Lemma foldl_accuracyStep tasks : ∀ (acc : AccuracyByType) type,
  foldl accuracyStep acc tasks type
  = if bool_decide (countTasks (hasType type) tasks = 0) then acc type
    else Some ((default (0, 0) (acc type)).1
               + countTasks (hasTypeSpotted type) tasks,
               (default (0, 0) (acc type)).2
               + countTasks (hasType type) tasks).
Proof.
  induction tasks as [| task tasks IH]; intros acc type; [reflexivity |].
  cbn [foldl]. rewrite IH, !countTasks_cons.
  pose proof (countTasks_nonneg (hasType type) tasks) as Hnonneg.
  pose proof (countTasks_nonneg (hasTypeSpotted type) tasks) as Hnonneg'.
  assert (Hle : countTasks (hasTypeSpotted type) tasks
                ≤ countTasks (hasType type) tasks).
  { apply countTasks_le. intros other Hother.
    unfold hasTypeSpotted in Hother.
    by apply andb_true_iff in Hother as [? _]. }
  assert (Hspot :
    hasTypeSpotted type task
    = hasType type task
      && bool_decide (Task.userAnswer task = Some vulnerable)) by reflexivity.
  unfold accuracyStep. rewrite Hspot.
  destruct (bool_decide_reflect (Task.vulnerabilityType task = type))
    as [Htype | Htype].
  - assert (Hty : hasType type task = true)
      by (by apply bool_decide_eq_true_2).
    rewrite Hty, (bool_decide_eq_true_2 (type = _)) by done.
    rewrite Htype.
    destruct (acc type) as [[correct total] |];
      destruct (bool_decide (Task.userAnswer task = Some vulnerable));
      cbn; repeat case_bool_decide; try lia; f_equal; f_equal; lia.
  - assert (Hty : hasType type task = false)
      by (by apply bool_decide_eq_false_2).
    rewrite Hty, (bool_decide_eq_false_2 (type = _)) by done.
    cbn [andb]. rewrite !Z.add_0_l. reflexivity.
Qed.

(** X6. The accuracy table of the report view has an entry for a
    vulnerability type exactly when some vulnerable task of the run has
    that type; the entry's total is the number of those tasks and its
    correct count the number of them answered "vulnerable", so correct
    never exceeds total. *)
Theorem accuracyByType_counts allTasks type :
  accuracyByType allTasks type
  = (if bool_decide (countTasks (vulnerableOfType type) allTasks = 0)
     then None
     else Some (countTasks (spottedOfType type) allTasks,
                countTasks (vulnerableOfType type) allTasks))
  ∧ 0 ≤ countTasks (spottedOfType type) allTasks
      ≤ countTasks (vulnerableOfType type) allTasks.
Proof.
  split.
  - unfold accuracyByType. rewrite foldl_accuracyStep.
    rewrite !countTasks_vulnerable. cbn [default fst snd].
    rewrite !Z.add_0_l.
    assert (Hsame : ∀ tasks,
      countTasks (λ task, Task.isVulnerable task && hasTypeSpotted type task)
                 tasks
      = countTasks (spottedOfType type) tasks).
    { intros tasks. induction tasks as [| task tasks IH]; [done |].
      rewrite !countTasks_cons, IH.
      unfold spottedOfType, vulnerableOfType, hasTypeSpotted, hasType.
      by rewrite andb_assoc. }
    rewrite Hsame. reflexivity.
  - split; [apply countTasks_nonneg |].
    apply countTasks_le. intros task Htask. unfold spottedOfType in Htask.
    by apply andb_true_iff in Htask as [? _].
Qed.

(** ** Starting a round *)

(** X7. Whatever state the game was in, a start whose generator call
    succeeds leaves a fresh round in play: phase PLAYING on the delivered
    batch with its first task current and the others pending, index 0,
    score and counters 0, no end reason and no report, the chosen language,
    and a full timer of the configured time per task (that of EASY in
    endless mode). A start whose generator call fails leaves exactly the
    initial state. *)
Theorem round_start random2 app difficulty factors language batch :
  let started := (handleStartGame random2 app difficulty factors language).1 in
  let playing := App.state (onSnippets started (Some batch)).1 in
  let aborted := App.state (onSnippets started None).1 in
  let startingDifficulty := if App.endlessMode app then EASY else difficulty in
  GameState.phase playing = PLAYING
  ∧ GameState.tasks playing = installed batch
  ∧ GameState.currentTaskIndex playing = 0
  ∧ GameState.score playing = 0
  ∧ GameState.totalCorrect playing = 0
  ∧ GameState.totalIncorrect playing = 0
  ∧ GameState.gameOverReason playing = None
  ∧ GameState.auditReport playing = None
  ∧ GameState.language playing = language
  ∧ GameState.difficulty playing = startingDifficulty
  ∧ GameState.timePerTask playing
    = GameConfig.timePerTask
        (calculateGameConfig random2 startingDifficulty factors)
  ∧ GameState.timeRemaining playing = GameState.timePerTask playing
  ∧ aborted = initialState.
Proof.
  cbn. repeat split.
Qed.

(** X8. In endless mode the difficulty chosen on the start screen plays no
    part: two starts that differ only in it (and in the random draw) give
    the same state and the same generator request, 5 tasks at EASY. *)
Theorem endless_start_ignores_difficulty
    random2 random2' app difficulty difficulty' factors language :
  App.endlessMode app = true →
  handleStartGame random2 app difficulty factors language
  = handleStartGame random2' app difficulty' factors language
  ∧ GenerateSnippetsRequest.difficulty
      (handleStartGame random2 app difficulty factors language).2 = EASY
  ∧ GenerateSnippetsRequest.count
      (handleStartGame random2 app difficulty factors language).2 = 5.
Proof.
  intros Hendless. unfold handleStartGame. rewrite Hendless. by repeat split.
Qed.

Lemma endless_start_ignores_difficulty_witness :
  let factors := DifficultyFactors.mk true true true in
  handleStartGame 0 endlessApp HARD factors python
  = handleStartGame 1 endlessApp MEDIUM factors python.
Proof.
  intros factors.
  apply (endless_start_ignores_difficulty 0 1 endlessApp HARD MEDIUM factors
           python).
  reflexivity.
Defined.

(** ** Endless mode, the next batch *)

(** X9. When an endless batch is finished without a failure and the next
    batch arrives, play resumes on it with index, score and counters back
    at 0, while the time per task and the difficulty recorded in the state
    stay what they were: only the stage, and with it the generator request,
    escalates. If the generator fails instead, the state is the initial
    one. *)
Theorem endless_next_batch app answer task batch :
  App.endlessMode app = true →
  currentTask (App.state app) = Some task →
  isCorrect answer task = true →
  Z.of_nat (length (GameState.tasks (App.state app))) - 1
    ≤ GameState.currentTaskIndex (App.state app) →
  (∀ i other, GameState.tasks (App.state app) !! i = Some other →
              Z.of_nat i ≠ GameState.currentTaskIndex (App.state app) →
              Task.status other ≠ failed) →
  let waiting := (handleAnswer app answer).1 in
  let resumed := onEndlessBatch waiting (Some batch) in
  let dropped := onEndlessBatch waiting None in
  GameState.phase (App.state resumed) = PLAYING
  ∧ GameState.tasks (App.state resumed) = installed batch
  ∧ GameState.currentTaskIndex (App.state resumed) = 0
  ∧ GameState.score (App.state resumed) = 0
  ∧ GameState.totalCorrect (App.state resumed) = 0
  ∧ GameState.totalIncorrect (App.state resumed) = 0
  ∧ GameState.timePerTask (App.state resumed)
    = GameState.timePerTask (App.state app)
  ∧ GameState.timeRemaining (App.state resumed)
    = GameState.timePerTask (App.state app)
  ∧ GameState.difficulty (App.state resumed)
    = GameState.difficulty (App.state app)
  ∧ App.endlessStage resumed = nextStage (App.endlessStage app)
  ∧ App.isGenerating resumed = false
  ∧ App.state dropped = initialState.
Proof.
  intros Hendless Hcur Hcorrect Hlast Hothers. cbn zeta.
  unfold handleAnswer.
  rewrite Hcur, Hendless, Hcorrect, (previousFailed_false _ Hothers).
  rewrite (bool_decide_eq_true_2 _ Hlast). cbn.
  unfold currentTask in Hcur. rewrite Hcur.
  assert (Hnot : bool_decide (answer = vulnerable)
                 && negb (Task.isVulnerable task) = false).
  { unfold isCorrect in Hcorrect.
    rewrite is_vulnerable_answer, is_safe_answer in *.
    by destruct answer, (Task.isVulnerable task). }
  rewrite Hnot. rewrite (bool_decide_eq_true_2 _ Hlast). cbn.
  repeat split.
Qed.

Lemma endless_next_batch_witness :
  let resumed :=
    onEndlessBatch (handleAnswer endlessApp vulnerable).1 (Some [safeTask]) in
  GameState.phase (App.state resumed) = PLAYING
  ∧ GameState.score (App.state resumed) = 0
  ∧ GameState.timePerTask (App.state resumed)
    = GameState.timePerTask (App.state endlessApp)
  ∧ App.endlessStage resumed = nextStage (App.endlessStage endlessApp).
Proof.
  intros resumed.
  assert (Hcur : currentTask (App.state endlessApp)
                 = Some (Task.with_status current sqlTask)) by reflexivity.
  pose proof (endless_next_batch endlessApp vulnerable _ [safeTask]
                eq_refl Hcur) as Hthm.
  cbv zeta in Hthm.
  destruct Hthm as (Hphase & _ & _ & Hscore & _ & _ & Htime & _ & _ & Hstage & _).
  - reflexivity.
  - vm_compute. discriminate.
  - intros [| i] other Hother Hindex.
    + exfalso. apply Hindex. reflexivity.
    + discriminate Hother.
  - split; [exact Hphase |]. split; [exact Hscore |].
    split; [exact Htime | exact Hstage].
Defined.

(** ** The debrief *)

Lemma reported_of_audited endlessMode tasks :
  filter (λ task, Is_true (Task.isVulnerable task))
         (tasksToAudit endlessMode tasks)
  = filter (λ task, Is_true (reportedTask endlessMode task)) tasks.
Proof.
  unfold tasksToAudit, reportedTask.
  destruct endlessMode; rewrite list_filter_filter; apply list_filter_iff;
    intros task; destruct (Task.isVulnerable task); cbn;
    rewrite ?negb_True, ?bool_decide_spec; intuition congruence.
Qed.

(** X10. Continuing from the end-of-round overlay always ends in DEBRIEF
    with a report stored, the overlay closed, and tasks, score and counters
    untouched; the report's audio is what the speech service returned for
    its summary. When the remote scanner is unavailable the report has one
    finding for each vulnerable task that was not completed (in endless
    mode: that was failed), in task order, and none for any other task: a
    safe task wrongly accused is audited but yields no finding. When the
    scanner answers and there is something to audit, its findings and
    summary are taken as they are; when there is nothing to audit the
    scanner is not consulted and the report is the perfect-score one. *)
Theorem debrief_report api speak app :
  let state := App.state app in
  let app' := handleContinueFromEmergency api speak app in
  let state' := App.state app' in
  GameState.phase state' = DEBRIEF
  ∧ App.showEmergency app' = false
  ∧ GameState.tasks state' = GameState.tasks state
  ∧ GameState.score state' = GameState.score state
  ∧ answeredCount state' = answeredCount state
  ∧ ∃ report,
      GameState.auditReport state' = Some report
      ∧ AuditReport.audioUrl report = speak (AuditReport.summary report)
      ∧ (api = None →
         AuditReport.findings report
         = findingOfTask
             <$> filter (λ task,
                           Is_true (reportedTask (App.endlessMode app) task))
                        (GameState.tasks state))
      ∧ (∀ response,
           api = Some response →
           tasksToAudit (App.endlessMode app) (GameState.tasks state) ≠ [] →
           AuditReport.findings report = AuditReport.findings response
           ∧ AuditReport.summary report = AuditReport.summary response)
      ∧ (tasksToAudit (App.endlessMode app) (GameState.tasks state) = [] →
         AuditReport.findings report = []
         ∧ AuditReport.summary report = perfectScoreSummary).
Proof.
  cbn. split_and!; try reflexivity.
  eexists. split; [reflexivity |].
  case_bool_decide as Hlen; cbn; (split; [reflexivity |]); split_and!.
  - intros ->. cbn. by rewrite reported_of_audited.
  - by intros response -> _.
  - intros Hnil. rewrite Hnil in Hlen. cbn in Hlen. lia.
  - intros _. rewrite <- reported_of_audited.
    destruct (tasksToAudit _ _); [done | cbn in Hlen; lia].
  - intros response _ Hsome.
    destruct (tasksToAudit _ _); [done | cbn in Hlen; lia].
  - done.
Qed.

Lemma debrief_report_witness :
  let down := handleContinueFromEmergency None (λ _, None) endedApp in
  let scanned :=
    handleContinueFromEmergency (Some scannerReport) (λ _, None) endedApp in
  let clean := handleContinueFromEmergency None (λ _, None) idleApp in
  (Task.status <$> tasksToAudit false (GameState.tasks (App.state endedApp))
   = [failed; pending])
  ∧ (∃ report,
       GameState.auditReport (App.state down) = Some report
       ∧ AuditFinding.taskId <$> AuditReport.findings report = ["task-xss"])
  ∧ (∃ report,
       GameState.auditReport (App.state scanned) = Some report
       ∧ AuditReport.summary report = AuditReport.summary scannerReport)
  ∧ (∃ report,
       GameState.auditReport (App.state clean) = Some report
       ∧ AuditReport.summary report = perfectScoreSummary).
Proof.
  intros down scanned clean.
  split; [vm_compute; reflexivity |]. split_and!.
  - pose proof (debrief_report None (λ _, None) endedApp) as Hthm.
    cbv zeta in Hthm.
    destruct Hthm
      as (_ & _ & _ & _ & _ & report & Hstored & _ & Hfindings & _ & _).
    exists report. split; [exact Hstored |].
    rewrite (Hfindings eq_refl). vm_compute. reflexivity.
  - pose proof (debrief_report (Some scannerReport) (λ _, None) endedApp)
      as Hthm.
    cbv zeta in Hthm.
    destruct Hthm
      as (_ & _ & _ & _ & _ & report & Hstored & _ & _ & Hscanned & _).
    exists report. split; [exact Hstored |].
    apply (Hscanned scannerReport eq_refl). vm_compute. discriminate.
  - pose proof (debrief_report None (λ _, None) idleApp) as Hthm.
    cbv zeta in Hthm.
    destruct Hthm
      as (_ & _ & _ & _ & _ & report & Hstored & _ & _ & _ & Hclean).
    exists report. split; [exact Hstored |].
    apply Hclean. reflexivity.
Defined.

(** ** The fallback summary *)

Lemma mockSummary_detected vulnerableCount criticalCount highCount :
  vulnerableCount ≠ 0%nat →
  ∃ rest, mockSummary vulnerableCount criticalCount highCount
          = "Security scan detected " +:+ rest.
Proof.
  intros Hsome. unfold mockSummary. rewrite bool_decide_eq_false_2 by done.
  cbv zeta.
  destruct (bool_decide (0 < criticalCount)%nat),
           (bool_decide (0 < highCount)%nat);
    rewrite !string_append_assoc; eexists; reflexivity.
Qed.

(** X11. The fallback summary is the "no vulnerabilities" sentence exactly
    when the request holds no vulnerable task, which is exactly when the
    fallback report has no finding. *)
Theorem mock_summary_clean request :
  (AuditReport.summary (generateMockAudit request) = noVulnerabilitiesSummary
   ↔ vulnerableTasks (AuditRequest.tasks request) = [])
  ∧ (AuditReport.findings (generateMockAudit request) = []
     ↔ vulnerableTasks (AuditRequest.tasks request) = []).
Proof.
  cbn. fold (vulnerableTasks (AuditRequest.tasks request)).
  destruct (vulnerableTasks (AuditRequest.tasks request)) as [| task rest].
  - by split.
  - split; (split; [| done]); [| done].
    destruct (mockSummary_detected (length (findingOfTask <$> task :: rest))
                (length (filter (λ f, AuditFinding.severity f = CRITICAL)
                                (findingOfTask <$> task :: rest)))
                (length (filter (λ f, AuditFinding.severity f = HIGH)
                                (findingOfTask <$> task :: rest))))
      as [tail ->]; [done |].
    unfold noVulnerabilitiesSummary. rewrite !string_append_cons.
    intros Heq. discriminate Heq.
Qed.

Lemma mock_summary_clean_witness :
  let request := AuditRequest.mk [Task.with_status failed safeTask] javascript in
  vulnerableTasks (AuditRequest.tasks request) = []
  ∧ AuditReport.summary (generateMockAudit request) = noVulnerabilitiesSummary.
Proof.
  intros request.
  assert (Hnone : vulnerableTasks (AuditRequest.tasks request) = [])
    by reflexivity.
  split; [exact Hnone |].
  exact (proj2 (proj1 (mock_summary_clean request)) Hnone).
Defined.

(** ** The countdown in play *)

Lemma with_timeRemaining_twice a b state :
  GameState.with_timeRemaining a (GameState.with_timeRemaining b state)
  = GameState.with_timeRemaining a state.
Proof. reflexivity. Qed.

Lemma timeRemaining_with a state :
  GameState.timeRemaining (GameState.with_timeRemaining a state) = a.
Proof. reflexivity. Qed.

Lemma secondPasses_counting app :
  GameState.phase (App.state app) = PLAYING →
  1 < GameState.timeRemaining (App.state app) →
  secondPasses app
  = App.mk (GameState.with_timeRemaining
              (GameState.timeRemaining (App.state app) - 1) (App.state app))
           (App.endlessMode app) (App.endlessStage app)
           (App.showEmergency app) (App.isGenerating app).
Proof.
  intros Hphase Hleft. unfold secondPasses, timerEffect, timeoutEffect.
  rewrite (bool_decide_eq_true_2 _ Hphase). cbn.
  rewrite (bool_decide_eq_false_2 (_ ≤ 1)) by lia. cbn.
  rewrite bool_decide_eq_false_2 by (rewrite Hphase; by intros []).
  rewrite (bool_decide_eq_false_2 (_ ≤ 0)) by lia.
  by case_bool_decide.
Qed.

Lemma secondPasses_expiring app :
  GameState.phase (App.state app) = PLAYING →
  GameState.timeRemaining (App.state app) ≤ 1 →
  secondPasses app
  = App.mk (gameReducer (GameState.with_timeRemaining 0 (App.state app))
                        TIME_UP)
           (App.endlessMode app) (App.endlessStage app)
           true (App.isGenerating app).
Proof.
  intros Hphase Hleft. unfold secondPasses, timerEffect, timeoutEffect.
  rewrite (bool_decide_eq_true_2 _ Hphase). cbn.
  rewrite (bool_decide_eq_true_2 (_ ≤ 1)) by lia. cbn.
  rewrite bool_decide_eq_false_2 by (rewrite Hphase; by intros []).
  reflexivity.
Qed.

Lemma secondPasses_idle app :
  GameState.phase (App.state app) ≠ PLAYING →
  secondPasses app = app.
Proof.
  intros Hphase. unfold secondPasses, timerEffect, timeoutEffect.
  rewrite (bool_decide_eq_false_2 _ Hphase).
  by rewrite (bool_decide_eq_true_2 _ Hphase).
Qed.

(** X12. A task nobody answers times out after exactly as many seconds as
    were left, and only once. With [r > 0] seconds left in play, after
    [n < r] seconds the state is the same but for [r - n] seconds left;
    after [r] seconds the timeout has been dispatched on a timer at 0
    (phase AUDITING, reason timeout, the current task failed, the overlay
    shown); and any further second changes nothing. *)
Theorem countdown_expires app (n : nat) :
  GameState.phase (App.state app) = PLAYING →
  0 < GameState.timeRemaining (App.state app) →
  let later := Nat.iter n secondPasses app in
  (Z.of_nat n < GameState.timeRemaining (App.state app) →
   later
   = App.mk (GameState.with_timeRemaining
               (GameState.timeRemaining (App.state app) - Z.of_nat n)
               (App.state app))
            (App.endlessMode app) (App.endlessStage app)
            (App.showEmergency app) (App.isGenerating app))
  ∧ (GameState.timeRemaining (App.state app) ≤ Z.of_nat n →
     later
     = App.mk (gameReducer (GameState.with_timeRemaining 0 (App.state app))
                           TIME_UP)
              (App.endlessMode app) (App.endlessStage app)
              true (App.isGenerating app)
     ∧ GameState.phase (App.state later) = AUDITING
     ∧ GameState.gameOverReason (App.state later) = Some timeout).
Proof.
  intros Hphase Hleft. cbn zeta.
  induction n as [| n [IHbefore IHafter]].
  - split; [| lia]. intros _. cbn. rewrite Z.sub_0_r.
    by destruct app as [[] ? ? ? ?].
  - rewrite Nat.iter_succ.
    destruct (decide (Z.of_nat n < GameState.timeRemaining (App.state app)))
      as [Hbefore | Hafter].
    + rewrite (IHbefore Hbefore).
      destruct (decide (Z.of_nat (S n)
                        < GameState.timeRemaining (App.state app)))
        as [Hstill | Hnow].
      * split; [intros _ | lia].
        rewrite secondPasses_counting by (cbn; first [done | lia]).
        cbn [App.state App.endlessMode App.endlessStage App.showEmergency
             App.isGenerating].
        rewrite with_timeRemaining_twice, timeRemaining_with.
        do 2 f_equal. lia.
      * split; [lia | intros _].
        rewrite secondPasses_expiring by (cbn; first [done | lia]).
        by repeat split.
    + split; [lia | intros _].
      destruct IHafter as (-> & Haudit & Hreason); [lia |].
      rewrite secondPasses_idle by (cbn; discriminate).
      by repeat split.
Qed.

Lemma countdown_expires_witness :
  let app := App.mk (roundOn [sqlTask]) false EASY false false in
  GameState.timeRemaining (App.state app) = 30
  ∧ GameState.phase (App.state (Nat.iter 29 secondPasses app)) = PLAYING
  ∧ GameState.phase (App.state (Nat.iter 30 secondPasses app)) = AUDITING
  ∧ GameState.gameOverReason (App.state (Nat.iter 31 secondPasses app))
    = Some timeout.
Proof.
  intros app.
  assert (Hphase : GameState.phase (App.state app) = PLAYING) by reflexivity.
  assert (Hleft : 0 < GameState.timeRemaining (App.state app)) by reflexivity.
  split; [reflexivity |].
  pose proof (countdown_expires app 29 Hphase Hleft) as H29.
  pose proof (countdown_expires app 30 Hphase Hleft) as H30.
  pose proof (countdown_expires app 31 Hphase Hleft) as H31.
  cbv zeta in H29, H30, H31.
  destruct H29 as [H29 _]. destruct H30 as [_ H30]. destruct H31 as [_ H31].
  split; [rewrite H29 by (vm_compute; reflexivity); reflexivity |].
  split; [apply H30; vm_compute; discriminate |].
  apply H31. vm_compute. discriminate.
Defined.

(** ** Tallies along a round *)

Lemma length_filter_imap_same {A} (P : A → Prop) `{!∀ x, Decision (P x)}
    (f : nat → A → A) (l : list A) :
  (∀ i x, l !! i = Some x → (P (f i x) ↔ P x)) →
  length (filter P (imap f l)) = length (filter P l).
Proof.
  revert f. induction l as [| x l IH]; intros f Hsame; [done |].
  rewrite imap_cons, !filter_cons.
  pose proof (Hsame 0%nat x eq_refl) as Hhead.
  assert (Htail : length (filter P (imap (f ∘ S) l)) = length (filter P l)).
  { apply IH. intros i y Hi. apply (Hsame (S i) y Hi). }
  repeat case_decide; cbn [length]; try tauto; by rewrite Htail.
Qed.

Lemma length_filter_imap_gain {A} (P : A → Prop) `{!∀ x, Decision (P x)}
    (f : nat → A → A) (l : list A) k x :
  l !! k = Some x → ¬ P x → P (f k x) →
  (∀ i y, l !! i = Some y → i ≠ k → (P (f i y) ↔ P y)) →
  length (filter P (imap f l)) = S (length (filter P l)).
Proof.
  revert f k. induction l as [| head l IH];
    intros f k Hk Hbefore Hafter Hothers; [done |].
  rewrite imap_cons, !filter_cons.
  destruct k as [| k]; cbn in Hk.
  - injection Hk as ->.
    rewrite decide_True by done. rewrite (decide_False (P:=P x)) by done.
    cbn [length]. f_equal. apply length_filter_imap_same.
    intros i y Hi. apply (Hothers (S i) y Hi). lia.
  - pose proof (Hothers 0%nat head eq_refl ltac:(lia)) as Hhead.
    assert (Htail : length (filter P (imap (f ∘ S) l))
                    = S (length (filter P l))).
    { apply (IH (f ∘ S) k Hk Hbefore Hafter).
      intros i y Hi Hne. apply (Hothers (S i) y Hi). lia. }
    repeat case_decide; cbn [length]; try tauto; by rewrite Htail.
Qed.

Lemma isDone_completed task :
  Task.status task = completed → isDone task = true.
Proof. unfold isDone. by intros ->. Qed.

Lemma completed_le_done tasks :
  Z.of_nat (length (filter (λ t, Task.status t = completed) tasks))
  ≤ doneCount tasks.
Proof.
  induction tasks as [| task tasks IH]; [done |].
  rewrite doneCount_cons, filter_cons.
  case_decide as Hstatus; cbn [length].
  - rewrite (isDone_completed _ Hstatus). lia.
  - destruct (isDone task); lia.
Qed.

Lemma scoreInvariant_step state action :
  scoreInvariant state → scoreInvariant (gameReducer state action).
Proof.
  unfold scoreInvariant. intros Hinv.
  destruct action; reducer_cases; lia.
Qed.

(** Splits on the first decided proposition of the goal. *)
Ltac case_goal_decide H :=
  match goal with
  | |- context [bool_decide ?P] =>
      destruct (bool_decide_reflect P) as [H | H]
  end.

(** One step keeps "as many completed tasks as correct answers". *)
Lemma completed_step state action :
  dispatchedInPhase state action = true →
  roundInv state →
  GameState.totalCorrect state = Z.of_nat (completedTasks state) →
  GameState.totalCorrect (gameReducer state action)
  = Z.of_nat (completedTasks (gameReducer state action)).
Proof.
  intros Hguard [Hahead Hcurrent Hload Hlive Hgap] Htally.
  unfold completedTasks in *.
  destruct action; cbn in Hguard;
    try apply bool_decide_eq_true_1 in Hguard; try exact Htally.
  - (* START_LOADING *) reflexivity.
  - (* LOAD_TASKS *)
    cbn. destruct (Hload Hguard) as [_ Hnone].
    pose proof (completed_le_done (GameState.tasks state)) as Hle.
    assert (Hzero : GameState.totalCorrect state = 0) by lia.
    rewrite Hzero.
    pose proof (completed_le_done
      (imap (λ index task,
               Task.with_status
                 (if bool_decide (index = 0%nat) then current else pending)
                 task) payload)) as Hle'.
    rewrite doneCount_loaded in Hle'. lia.
  - (* ANSWER_TASK *)
    destruct (currentTask state) as [cur |] eqn:Hcur;
      [| by rewrite answer_noop].
    pose proof (Hcurrent cur (or_intror Hguard) eq_refl) as Hopen.
    pose proof (proj1 (taskAt_Some _ _ _) Hcur) as [Hnn Hlookup].
    pose proof (answer_counters state answer cur Hcur) as Hcount.
    cbn zeta in Hcount.
    unfold currentTask in Hcur. cbn in *. rewrite Hcur in *.
    assert (Hnot : Task.status cur ≠ completed).
    { intros Hstatus. by rewrite (isDone_completed _ Hstatus) in Hopen. }
    destruct (bool_decide (answer = vulnerable)
              && negb (Task.isVulnerable cur)) eqn:Haccuse.
    + assert (Hwrong : isCorrect answer cur = false).
      { unfold isCorrect. rewrite is_vulnerable_answer, is_safe_answer in *.
        by destruct answer, (Task.isVulnerable cur). }
      rewrite Hwrong in Hcount. destruct Hcount as (_ & -> & _).
      cbn. rewrite Htally. f_equal. symmetry.
      apply length_filter_imap_same. intros i task Hi.
      case_goal_decide Hidx; [| done].
      assert (i = Z.to_nat (GameState.currentTaskIndex state)) as -> by lia.
      rewrite Hlookup in Hi. injection Hi as <-. cbn. split; [done | tauto].
    + assert (Hothers : ∀ i task,
        GameState.tasks state !! i = Some task →
        i ≠ Z.to_nat (GameState.currentTaskIndex state) →
        Task.status
          (if bool_decide (Z.of_nat i = GameState.currentTaskIndex state)
           then Task.with_status_answer
                  (if isCorrect answer cur then completed else failed)
                  answer task
           else if bool_decide
                     (Z.of_nat i = GameState.currentTaskIndex state + 1)
           then Task.with_status current task else task) = completed
        ↔ Task.status task = completed).
      { intros i task Hi Hne.
        rewrite bool_decide_eq_false_2 by lia.
        case_goal_decide Hnext; [| done]. cbn.
        pose proof (Hahead i task Hi ltac:(lia)) as Hunfinished.
        split; [done |]. intros Hstatus.
        by rewrite (isDone_completed _ Hstatus) in Hunfinished. }
      destruct (isCorrect answer cur) eqn:Hcorrect.
      * destruct Hcount as (_ & Hcorrect' & _).
        assert (Hgain :
          length (filter (λ t, Task.status t = completed)
            (imap (λ index task,
               if bool_decide (Z.of_nat index = GameState.currentTaskIndex state)
               then Task.with_status_answer completed answer task
               else if bool_decide
                         (Z.of_nat index = GameState.currentTaskIndex state + 1)
               then Task.with_status current task else task)
              (GameState.tasks state)))
          = S (length (filter (λ t, Task.status t = completed)
                              (GameState.tasks state)))).
        { apply (length_filter_imap_gain _ _ _ _ cur Hlookup Hnot).
          - by rewrite bool_decide_eq_true_2 by lia.
          - exact Hothers. }
        case_bool_decide; cbn in *; rewrite Hgain; lia.
      * destruct Hcount as (_ & Hcorrect' & _).
        assert (Hsame :
          length (filter (λ t, Task.status t = completed)
            (imap (λ index task,
               if bool_decide (Z.of_nat index = GameState.currentTaskIndex state)
               then Task.with_status_answer failed answer task
               else if bool_decide
                         (Z.of_nat index = GameState.currentTaskIndex state + 1)
               then Task.with_status current task else task)
              (GameState.tasks state)))
          = length (filter (λ t, Task.status t = completed)
                           (GameState.tasks state))).
        { apply length_filter_imap_same. intros i task Hi.
          destruct (decide (i = Z.to_nat (GameState.currentTaskIndex state)))
            as [-> | Hne]; [| by apply Hothers].
          rewrite bool_decide_eq_true_2 by lia.
          rewrite Hlookup in Hi. injection Hi as <-. cbn.
          split; [done | tauto]. }
        case_bool_decide; cbn in *; rewrite Hsame; lia.
  - (* NEXT_TASK *)
    cbn. case_bool_decide; cbn; [exact Htally |].
    rewrite Htally. f_equal. symmetry.
    apply length_filter_imap_same. intros i task Hi.
    case_goal_decide Hnext; [| done]. cbn.
    pose proof (Hahead i task Hi ltac:(lia)) as Hunfinished.
    split; [done |]. intros Hstatus.
    by rewrite (isDone_completed _ Hstatus) in Hunfinished.
  - (* TICK_TIMER *) cbn. by case_bool_decide.
  - (* TIME_UP *)
    cbn. rewrite Htally. f_equal. symmetry.
    apply length_filter_imap_same. intros i task Hi.
    case_goal_decide Hidx; [| done]. cbn.
    assert (Hcur : currentTask state = Some task).
    { unfold currentTask. rewrite <- Hidx, taskAt_of_nat. exact Hi. }
    pose proof (Hcurrent task (or_intror Hguard) Hcur) as Hopen.
    split; [done |]. intros Hstatus.
    by rewrite (isDone_completed _ Hstatus) in Hopen.
  - (* RESET_GAME *) reflexivity.
Qed.

Lemma dispatchInPhase_completed actions : ∀ state state',
  roundInv state →
  scoreInvariant state →
  GameState.totalCorrect state = Z.of_nat (completedTasks state) →
  dispatchInPhase state actions = Some state' →
  GameState.totalCorrect state' = Z.of_nat (completedTasks state')
  ∧ scoreInvariant state'.
Proof.
  induction actions as [| action actions IH];
    intros state state' Hinv Hscore Htally Hrun.
  - injection Hrun as <-. by split.
  - cbn in Hrun.
    destruct (dispatchedInPhase state action) eqn:Hguard; [| done].
    apply (IH (gameReducer state action)); try done.
    + by apply roundInv_step.
    + by apply scoreInvariant_step.
    + by apply completed_step.
Qed.

(** X13. Along any run from the initial state whose actions come in their
    phases, the number of tasks shown as completed is the number of correct
    answers counted, and the score is 100 times that number. *)
Theorem completed_tasks_and_score actions state :
  dispatchInPhase initialState actions = Some state →
  GameState.totalCorrect state = Z.of_nat (completedTasks state)
  ∧ GameState.score state = 100 * Z.of_nat (completedTasks state).
Proof.
  intros Hrun.
  destruct (dispatchInPhase_completed actions initialState state
              roundInv_initial eq_refl eq_refl Hrun) as [Htally Hscore].
  split; [exact Htally |]. unfold scoreInvariant in Hscore. lia.
Qed.

Lemma completed_tasks_and_score_witness :
  let actions := [START_LOADING; LOAD_TASKS [sqlTask; safeTask; xssTask];
                  START_PLAYING; ANSWER_TASK vulnerable; ANSWER_TASK safe;
                  ANSWER_TASK safe] in
  let state := dispatchAll initialState actions in
  dispatchInPhase initialState actions = Some state
  ∧ completedTasks state = 2%nat
  ∧ GameState.score state = 100 * Z.of_nat (completedTasks state).
Proof.
  intros actions state.
  assert (Hrun : dispatchInPhase initialState actions = Some state)
    by (vm_compute; reflexivity).
  split; [exact Hrun |]. split; [vm_compute; reflexivity |].
  exact (proj2 (completed_tasks_and_score actions state Hrun)).
Defined.

(** ** No end reason while a round is in play *)

Lemma reason_step state action :
  dispatchedInPhase state action = true →
  (GameState.phase state = LOADING ∨ GameState.phase state = PLAYING →
   GameState.gameOverReason state = None) →
  GameState.phase (gameReducer state action) = LOADING
  ∨ GameState.phase (gameReducer state action) = PLAYING →
  GameState.gameOverReason (gameReducer state action) = None.
Proof.
  intros Hguard Hnone.
  destruct action; cbn in Hguard;
    try apply bool_decide_eq_true_1 in Hguard;
    reducer_cases; intros [Hphase | Hphase];
    try discriminate Hphase; try reflexivity;
    apply Hnone; rewrite ?Hguard; auto.
Qed.

(** X14. Along any run from the initial state whose actions come in their
    phases, no end-of-round reason is set while the phase is LOADING or
    PLAYING: the reason appears only with the move to AUDITING, so the
    end-of-round overlay, which needs one, cannot show over a round in
    play. *)
Theorem no_reason_in_play actions state :
  dispatchInPhase initialState actions = Some state →
  GameState.phase state = LOADING ∨ GameState.phase state = PLAYING →
  GameState.gameOverReason state = None.
Proof.
  assert (Hgen : ∀ start,
    (GameState.phase start = LOADING ∨ GameState.phase start = PLAYING →
     GameState.gameOverReason start = None) →
    dispatchInPhase start actions = Some state →
    GameState.phase state = LOADING ∨ GameState.phase state = PLAYING →
    GameState.gameOverReason state = None).
  { induction actions as [| action actions IH]; intros start Hnone Hrun.
    - by injection Hrun as <-.
    - cbn in Hrun.
      destruct (dispatchedInPhase start action) eqn:Hguard; [| done].
      apply (IH (gameReducer start action)); [| done].
      by apply reason_step. }
  apply Hgen. by intros _.
Qed.

Lemma no_reason_in_play_witness :
  let actions := [START_LOADING; LOAD_TASKS [sqlTask; safeTask];
                  START_PLAYING; ANSWER_TASK safe; TICK_TIMER] in
  let state := dispatchAll initialState actions in
  GameState.phase state = PLAYING
  ∧ GameState.totalIncorrect state = 1
  ∧ GameState.gameOverReason state = None.
Proof.
  intros actions state.
  assert (Hrun : dispatchInPhase initialState actions = Some state)
    by (vm_compute; reflexivity).
  assert (Hphase : GameState.phase state = PLAYING)
    by (vm_compute; reflexivity).
  split; [exact Hphase |]. split; [vm_compute; reflexivity |].
  exact (no_reason_in_play actions state Hrun (or_intror Hphase)).
Defined.

(** ** The layout of the task list *)

(** The three ways an answer on a current task can go. *)
Lemma answer_cases state answer cur :
  currentTask state = Some cur →
  let state' := gameReducer state (ANSWER_TASK answer) in
  let k := GameState.currentTaskIndex state in
  ∃ st, (st = completed ∨ st = failed)
    ∧ ((GameState.phase state' = AUDITING
        ∧ GameState.currentTaskIndex state' = k
        ∧ GameState.tasks state'
          = imap (λ index task,
                    if bool_decide (Z.of_nat index = k)
                    then Task.with_status_answer st answer task else task)
                 (GameState.tasks state))
       ∨ (GameState.phase state' = AUDITING
          ∧ GameState.currentTaskIndex state' = k
          ∧ Z.of_nat (length (GameState.tasks state)) - 1 ≤ k
          ∧ GameState.tasks state'
            = imap (λ index task,
                      if bool_decide (Z.of_nat index = k)
                      then Task.with_status_answer st answer task
                      else if bool_decide (Z.of_nat index = k + 1)
                      then Task.with_status current task else task)
                   (GameState.tasks state))
       ∨ (GameState.phase state' = GameState.phase state
          ∧ GameState.currentTaskIndex state' = k + 1
          ∧ k < Z.of_nat (length (GameState.tasks state)) - 1
          ∧ GameState.tasks state'
            = imap (λ index task,
                      if bool_decide (Z.of_nat index = k)
                      then Task.with_status_answer st answer task
                      else if bool_decide (Z.of_nat index = k + 1)
                      then Task.with_status current task else task)
                   (GameState.tasks state))).
Proof.
  unfold currentTask. intros Hcur. cbn. rewrite Hcur.
  destruct (bool_decide (answer = vulnerable) && negb (Task.isVulnerable cur)).
  - exists failed. split; [by right |]. left. by repeat split.
  - exists (if isCorrect answer cur then completed else failed).
    split; [destruct (isCorrect answer cur); auto |].
    right. case_goal_decide Hlast; [left | right]; repeat split; done || lia.
Qed.

Lemma isDone_status task :
  isDone task = true
  ↔ Task.status task = completed ∨ Task.status task = failed.
Proof. unfold isDone. by rewrite orb_true_iff, !bool_decide_eq_true. Qed.

Lemma shapeInv_initial : shapeInv initialState.
Proof. by constructor. Qed.

Lemma shapeInv_frame state state' :
  GameState.tasks state' = GameState.tasks state →
  GameState.currentTaskIndex state' = GameState.currentTaskIndex state →
  answeredCount state' = answeredCount state →
  GameState.phase state' = GameState.phase state
  ∨ (GameState.phase state' ≠ LOADING ∧ GameState.phase state' ≠ PLAYING) →
  shapeInv state → shapeInv state'.
Proof.
  intros Htasks Hindex Hcount Hphase [Hidx Hbehind Hahead Hcur Hload Hplay Hans].
  constructor; unfold currentTask in *; rewrite ?Htasks, ?Hindex, ?Hcount;
    try done; destruct Hphase as [-> | [? ?]]; try done;
    intros; intuition congruence.
Qed.

Lemma shapeInv_answer state answer :
  GameState.phase state = PLAYING →
  shapeInv state →
  shapeInv (gameReducer state (ANSWER_TASK answer)).
Proof.
  intros Hphase Hinv.
  destruct (currentTask state) as [cur |] eqn:Hcur;
    [| by rewrite answer_noop].
  destruct Hinv as [Hidx Hbehind Hahead Hcurrent Hload Hplay Hans].
  pose proof (proj1 (taskAt_Some _ _ _) Hcur) as [Hnn Hlookup].
  pose proof (lookup_lt_Some _ _ _ Hlookup) as Hrange.
  pose proof (answer_answeredCount state answer cur Hcur) as Hcount.
  destruct (answer_cases state answer cur Hcur) as (st & Hst & Hcases).
  cbn zeta in Hcases.
  assert (Hfinished : isDone (Task.with_status_answer st answer cur) = true).
  { rewrite isDone_with_status_answer. by destruct Hst as [-> | ->]. }
  destruct Hcases as [(Hphase' & Hindex' & Htasks')
                     | [(Hphase' & Hindex' & Hlast & Htasks')
                       | (Hphase' & Hindex' & Hmore & Htasks')]].
  - constructor; unfold currentTask;
      rewrite ?Hphase', ?Hindex', ?Htasks', ?length_imap; try done.
    + intros i task Hi Hlt.
      apply list_lookup_imap_Some in Hi as (other & Hother & ->).
      rewrite bool_decide_eq_false_2 by lia. by apply (Hbehind i).
    + intros i task Hi Hlt.
      apply list_lookup_imap_Some in Hi as (other & Hother & ->).
      rewrite bool_decide_eq_false_2 by lia. by apply (Hahead i).
    + by intros task [? | ?].
    + by intros [? | ?].
  - constructor; unfold currentTask;
      rewrite ?Hphase', ?Hindex', ?Htasks', ?length_imap; try done.
    + intros i task Hi Hlt.
      apply list_lookup_imap_Some in Hi as (other & Hother & ->).
      rewrite !bool_decide_eq_false_2 by lia. by apply (Hbehind i).
    + intros i task Hi Hlt.
      apply list_lookup_imap_Some in Hi as (other & Hother & ->).
      pose proof (lookup_lt_Some _ _ _ Hother). lia.
    + by intros task [? | ?].
    + by intros [? | ?].
  - constructor; unfold currentTask;
      rewrite ?Hphase', ?Hindex', ?Htasks', ?length_imap, ?Hcount.
    + lia.
    + intros i task Hi Hlt.
      apply list_lookup_imap_Some in Hi as (other & Hother & ->).
      destruct (decide (Z.of_nat i = GameState.currentTaskIndex state))
        as [Heq | Hne].
      * rewrite bool_decide_eq_true_2 by done.
        assert (i = Z.to_nat (GameState.currentTaskIndex state)) as -> by lia.
        rewrite Hlookup in Hother. by injection Hother as <-.
      * rewrite !bool_decide_eq_false_2 by lia.
        apply (Hbehind i other Hother). lia.
    + intros i task Hi Hlt.
      apply list_lookup_imap_Some in Hi as (other & Hother & ->).
      rewrite !bool_decide_eq_false_2 by lia.
      apply (Hahead i other Hother). lia.
    + intros task _ Hat. apply taskAt_Some in Hat as [_ Hat].
      apply list_lookup_imap_Some in Hat as (other & _ & ->).
      rewrite bool_decide_eq_false_2 by lia.
      by rewrite bool_decide_eq_true_2 by lia.
    + rewrite Hphase. done.
    + intros _ _. lia.
    + intros _. rewrite (Hans (or_intror Hphase)). lia.
Qed.

Lemma shapeInv_time_up state :
  shapeInv state → shapeInv (gameReducer state TIME_UP).
Proof.
  intros [Hidx Hbehind Hahead Hcurrent Hload Hplay Hans].
  constructor; unfold currentTask; cbn; rewrite ?length_imap; try done.
  - intros i task Hi Hlt.
    apply list_lookup_imap_Some in Hi as (other & Hother & ->).
    rewrite bool_decide_eq_false_2 by lia. by apply (Hbehind i).
  - intros i task Hi Hlt.
    apply list_lookup_imap_Some in Hi as (other & Hother & ->).
    rewrite bool_decide_eq_false_2 by lia. by apply (Hahead i).
  - by intros task [? | ?].
  - by intros [? | ?].
Qed.

Lemma shapeInv_load state payload :
  GameState.phase state = LOADING →
  shapeInv state →
  shapeInv (gameReducer state (LOAD_TASKS payload)).
Proof.
  intros Hphase [Hidx Hbehind Hahead Hcurrent Hload Hplay Hans].
  pose proof (Hload Hphase) as Hzero.
  constructor; unfold currentTask; cbn; rewrite ?length_imap, ?Hzero;
    try done.
  - lia.
  - intros i task Hi Hlt. lia.
  - intros i task Hi Hlt.
    apply list_lookup_imap_Some in Hi as (other & Hother & ->).
    by rewrite bool_decide_eq_false_2 by lia.
  - intros task _ Hat. apply taskAt_Some in Hat as [_ Hat].
    by apply list_lookup_imap_Some in Hat as (other & _ & ->).
  - rewrite Hphase. done.
  - intros _. rewrite <- Hzero. apply Hans. by left.
Qed.

Lemma shapeInv_start_playing state :
  GameState.phase state = LOADING →
  shapeInv state →
  shapeInv (gameReducer state START_PLAYING).
Proof.
  intros Hphase [Hidx Hbehind Hahead Hcurrent Hload Hplay Hans].
  constructor; unfold currentTask in *; cbn; try done.
  - intros task _. apply Hcurrent. by left.
  - intros _ Hsome. rewrite (Hload Hphase).
    destruct (GameState.tasks state); [done | cbn; lia].
  - intros _. apply Hans. by left.
Qed.

Lemma shapeInv_step state action :
  dispatchedInPhase state action = true →
  action ≠ NEXT_TASK →
  shapeInv state →
  shapeInv (gameReducer state action).
Proof.
  intros Hguard Hnot Hinv.
  destruct action; cbn in Hguard;
    try apply bool_decide_eq_true_1 in Hguard.
  - (* START_GAME *)
    apply (shapeInv_frame state); try done. right. by split.
  - (* SET_DIFFICULTY *) apply (shapeInv_frame state); by try left.
  - (* SET_LANGUAGE *) apply (shapeInv_frame state); by try left.
  - (* START_LOADING *) by constructor.
  - (* LOAD_TASKS *) by apply shapeInv_load.
  - (* START_PLAYING *) by apply shapeInv_start_playing.
  - (* ANSWER_TASK *) by apply shapeInv_answer.
  - (* NEXT_TASK *) done.
  - (* TICK_TIMER *)
    cbn. case_bool_decide; apply (shapeInv_frame state); by try left.
  - (* TIME_UP *) by apply shapeInv_time_up.
  - (* GAME_OVER *)
    apply (shapeInv_frame state); try done. right. by split.
  - (* START_AUDITING *)
    apply (shapeInv_frame state); try done. right. by split.
  - (* SET_AUDIT_REPORT *) apply (shapeInv_frame state); by try left.
  - (* START_DEBRIEF *)
    apply (shapeInv_frame state); try done. right. by split.
  - (* RESET_GAME *) apply shapeInv_initial.
Qed.

Lemma dispatchInPhase_shapeInv actions : ∀ state state',
  shapeInv state →
  noNextTask actions = true →
  dispatchInPhase state actions = Some state' →
  shapeInv state'.
Proof.
  induction actions as [| action actions IH];
    intros state state' Hinv Hnone Hrun.
  - by injection Hrun as <-.
  - cbn in Hrun, Hnone.
    destruct (dispatchedInPhase state action) eqn:Hguard; [| done].
    apply andb_true_iff in Hnone as [Hhead Htail].
    apply (IH (gameReducer state action)); try done.
    apply shapeInv_step; try done. intros ->. discriminate Hhead.
Qed.

(** X15. Along any run from the initial state whose actions come in their
    phases and are those App.tsx dispatches (no NEXT_TASK), the index stays
    within the task list, every task before it is completed or failed and
    every task after it is pending; and while the phase is PLAYING on a
    non-empty list the index is the number of answers given so far and
    points at a task that is current, the only current one. *)
Theorem one_current_task actions state :
  dispatchInPhase initialState actions = Some state →
  noNextTask actions = true →
  0 ≤ GameState.currentTaskIndex state
    ≤ Z.of_nat (length (GameState.tasks state))
  ∧ (∀ i task, GameState.tasks state !! i = Some task →
       Z.of_nat i < GameState.currentTaskIndex state →
       Task.status task = completed ∨ Task.status task = failed)
  ∧ (∀ i task, GameState.tasks state !! i = Some task →
       GameState.currentTaskIndex state < Z.of_nat i →
       Task.status task = pending)
  ∧ (GameState.phase state = PLAYING → GameState.tasks state ≠ [] →
     GameState.currentTaskIndex state = answeredCount state
     ∧ ∃ cur, currentTask state = Some cur
              ∧ Task.status cur = current
              ∧ ∀ i task, GameState.tasks state !! i = Some task →
                          Task.status task = current →
                          Z.of_nat i = GameState.currentTaskIndex state).
Proof.
  intros Hrun Hnone.
  destruct (dispatchInPhase_shapeInv actions _ _ shapeInv_initial Hnone Hrun)
    as [Hidx Hbehind Hahead Hcurrent Hload Hplay Hans].
  split; [exact Hidx |]. split; [| split; [exact Hahead |]].
  - intros i task Hi Hlt. apply isDone_status. by apply (Hbehind i).
  - intros Hphase Hsome. split; [apply Hans; by right |].
    specialize (Hplay Hphase Hsome).
    destruct (lookup_lt_is_Some_2 (GameState.tasks state)
                (Z.to_nat (GameState.currentTaskIndex state)))
      as [cur Hlookup]; [lia |].
    assert (Hcur : currentTask state = Some cur).
    { apply taskAt_Some. split; [lia | done]. }
    exists cur. split; [exact Hcur |].
    split; [apply Hcurrent; [by right | done] |].
    intros i task Hi Hstatus.
    destruct (Z.lt_trichotomy (Z.of_nat i) (GameState.currentTaskIndex state))
      as [Hlt | [Heq | Hgt]]; [| done |].
    + pose proof (proj1 (isDone_status task) (Hbehind i task Hi Hlt)).
      intuition congruence.
    + pose proof (Hahead i task Hi Hgt). congruence.
Qed.

Lemma one_current_task_witness :
  let actions := [START_LOADING; LOAD_TASKS [sqlTask; safeTask; xssTask];
                  START_PLAYING; ANSWER_TASK safe; TICK_TIMER] in
  let state := dispatchAll initialState actions in
  GameState.currentTaskIndex state = 1
  ∧ Task.status <$> GameState.tasks state = [failed; current; pending]
  ∧ GameState.currentTaskIndex state = answeredCount state
  ∧ (∃ cur, currentTask state = Some cur ∧ Task.status cur = current)
  ∧ (∃ task, GameState.tasks state !! 0%nat = Some task
             ∧ (Task.status task = completed ∨ Task.status task = failed))
  ∧ (∃ task, GameState.tasks state !! 2%nat = Some task
             ∧ Task.status task = pending).
Proof.
  intros actions state.
  assert (Hrun : dispatchInPhase initialState actions = Some state)
    by (vm_compute; reflexivity).
  assert (Hnone : noNextTask actions = true) by (vm_compute; reflexivity).
  assert (Hphase : GameState.phase state = PLAYING)
    by (vm_compute; reflexivity).
  assert (Hsome : GameState.tasks state ≠ [])
    by (vm_compute; discriminate).
  assert (Hindex : GameState.currentTaskIndex state = 1)
    by (vm_compute; reflexivity).
  assert (Hfirst : ∃ task, GameState.tasks state !! 0%nat = Some task)
    by (eexists; vm_compute; reflexivity).
  assert (Hthird : ∃ task, GameState.tasks state !! 2%nat = Some task)
    by (eexists; vm_compute; reflexivity).
  destruct Hfirst as [first Hfirst]. destruct Hthird as [third Hthird].
  assert (Hstatuses :
    Task.status <$> GameState.tasks state = [failed; current; pending])
    by (vm_compute; reflexivity).
  split; [exact Hindex |]. split; [exact Hstatuses |].
  destruct (one_current_task actions state Hrun Hnone)
    as (_ & Hbehind & Hahead & Hplaying).
  destruct (Hplaying Hphase Hsome)
    as (Hanswered & cur & Hcur & Hstatus & Hunique).
  split; [exact Hanswered |].
  split; [exists cur; split; [exact Hcur | exact Hstatus] |].
  split.
  - exists first. split; [exact Hfirst |].
    apply (Hbehind 0%nat first Hfirst). rewrite Hindex. reflexivity.
  - exists third. split; [exact Hthird |].
    apply (Hahead 2%nat third Hthird). rewrite Hindex. reflexivity.
Defined.

(** ** A round answered right throughout *)

Lemma imap_answer_at (g h : Task → Task) pre cur rest :
  imap (λ index task,
          if bool_decide (Z.of_nat index = Z.of_nat (length pre))
          then g task
          else if bool_decide (Z.of_nat index = Z.of_nat (length pre) + 1)
          then h task else task)
       (pre ++ cur :: rest)
  = pre ++ g cur :: match rest with
                    | [] => []
                    | next :: rest' => h next :: rest'
                    end.
Proof.
  rewrite imap_app. f_equal.
  - rewrite <- (list_fmap_id pre) at 2. rewrite <- (imap_const id).
    apply imap_ext. intros i task Hi. apply lookup_lt_Some in Hi. cbn.
    by rewrite !bool_decide_eq_false_2 by lia.
  - rewrite imap_cons. rewrite bool_decide_eq_true_2 by lia. f_equal.
    destruct rest as [| next rest']; [reflexivity |].
    rewrite imap_cons. cbn.
    rewrite bool_decide_eq_false_2 by lia.
    rewrite bool_decide_eq_true_2 by lia. f_equal.
    rewrite <- (list_fmap_id rest') at 2. rewrite <- (imap_const id).
    apply imap_ext. intros i task Hi. cbn.
    by rewrite !bool_decide_eq_false_2 by lia.
Qed.

Lemma correctAnswer_isCorrect task :
  isCorrect (correctAnswer task) task = true
  ∧ bool_decide (correctAnswer task = vulnerable)
    && negb (Task.isVulnerable task) = false.
Proof.
  unfold isCorrect, correctAnswer.
  rewrite !is_vulnerable_answer, !is_safe_answer.
  by destruct (Task.isVulnerable task).
Qed.

(** One right answer, on a task list split at the current index. *)
Lemma right_answer_step pre cur rest state :
  GameState.tasks state = pre ++ cur :: rest →
  GameState.currentTaskIndex state = Z.of_nat (length pre) →
  let state1 := gameReducer state (ANSWER_TASK (correctAnswer cur)) in
  GameState.tasks state1
    = pre ++ answeredRight cur
          :: match rest with
             | [] => []
             | next :: rest' => Task.with_status current next :: rest'
             end
  ∧ GameState.score state1 = GameState.score state + 100
  ∧ GameState.totalCorrect state1 = GameState.totalCorrect state + 1
  ∧ GameState.totalIncorrect state1 = GameState.totalIncorrect state
  ∧ match rest with
    | [] => GameState.phase state1 = AUDITING
            ∧ GameState.gameOverReason state1 = Some completed_round
    | _ :: _ => GameState.currentTaskIndex state1
                = Z.of_nat (length pre) + 1
    end.
Proof.
  intros Htasks Hindex.
  assert (Hcur : taskAt (GameState.tasks state)
                        (GameState.currentTaskIndex state) = Some cur).
  { rewrite Hindex, taskAt_of_nat, Htasks.
    rewrite lookup_app_r by lia. by rewrite Nat.sub_diag. }
  destruct (correctAnswer_isCorrect cur) as [Hcorrect Hnot].
  cbn. rewrite Hcur, Hnot, Hcorrect, Hindex, Htasks.
  rewrite imap_answer_at, length_app. cbn [length].
  destruct rest as [| next rest'].
  - rewrite bool_decide_eq_true_2 by (cbn; lia). by repeat split.
  - rewrite bool_decide_eq_false_2 by (cbn [length]; lia). by repeat split.
Qed.

Lemma perfect_from rest : ∀ pre cur state,
  GameState.tasks state = pre ++ cur :: rest →
  GameState.currentTaskIndex state = Z.of_nat (length pre) →
  let final :=
    dispatchAll state (ANSWER_TASK <$> (correctAnswer <$> cur :: rest)) in
  GameState.phase final = AUDITING
  ∧ GameState.gameOverReason final = Some completed_round
  ∧ GameState.tasks final = pre ++ (answeredRight <$> cur :: rest)
  ∧ GameState.score final
    = GameState.score state + 100 * Z.of_nat (S (length rest))
  ∧ GameState.totalCorrect final
    = GameState.totalCorrect state + Z.of_nat (S (length rest))
  ∧ GameState.totalIncorrect final = GameState.totalIncorrect state.
Proof.
  induction rest as [| next rest IH]; intros pre cur state Htasks Hindex;
    destruct (right_answer_step pre cur _ state Htasks Hindex)
      as (Htasks1 & Hscore1 & Hcorrect1 & Hwrong1 & Hend);
    cbn zeta in *.
  - destruct Hend as [Hphase Hreason].
    change (dispatchAll state (ANSWER_TASK <$> (correctAnswer <$> [cur])))
      with (gameReducer state (ANSWER_TASK (correctAnswer cur))).
    split_and!; try done; cbn [length]; lia.
  - change (dispatchAll state
              (ANSWER_TASK <$> (correctAnswer <$> cur :: next :: rest)))
      with (dispatchAll (gameReducer state (ANSWER_TASK (correctAnswer cur)))
              (ANSWER_TASK
                 <$> (correctAnswer
                        <$> Task.with_status current next :: rest))).
    destruct (IH (pre ++ [answeredRight cur]) (Task.with_status current next)
                 (gameReducer state (ANSWER_TASK (correctAnswer cur))))
      as (Hphase & Hreason & Htasks' & Hscore & Hcorrect & Hwrong).
    + by rewrite Htasks1, <- app_assoc.
    + rewrite Hend, length_app. cbn [length]. lia.
    + split_and!; try done.
      * rewrite Htasks', <- app_assoc. reflexivity.
      * rewrite Hscore, Hscore1. cbn [length]. lia.
      * rewrite Hcorrect, Hcorrect1. cbn [length]. lia.
      * by rewrite Hwrong, Hwrong1.
Qed.

Lemma installed_cons first others :
  installed (first :: others)
  = Task.with_status current first :: (Task.with_status pending <$> others).
Proof.
  unfold installed. rewrite imap_cons. f_equal.
  rewrite <- (imap_const (Task.with_status pending)).
  apply imap_ext. intros i task _. reflexivity.
Qed.

Lemma tasksToAudit_answeredRight endlessMode batch :
  tasksToAudit endlessMode (answeredRight <$> batch) = [].
Proof.
  induction batch as [| task batch IH]; [by destruct endlessMode |].
  unfold tasksToAudit in *. rewrite fmap_cons.
  destruct endlessMode; rewrite filter_cons_False; try done;
    cbn; intuition congruence.
Qed.

(** X16. Answering every task of a non-empty batch right, from the start of
    its round, ends the round in AUDITING with reason completed, every task
    completed with the answer given, a score of 100 per task, as many
    correct answers as tasks and no incorrect one; nothing is then left to
    audit, with or without endless mode, so the debrief gets the
    perfect-score report with no finding. *)
Theorem perfect_round batch endlessMode api speak :
  batch ≠ [] →
  let final :=
    dispatchAll (roundOn batch) (ANSWER_TASK <$> (correctAnswer <$> batch)) in
  GameState.phase final = AUDITING
  ∧ GameState.gameOverReason final = Some completed_round
  ∧ GameState.tasks final = answeredRight <$> batch
  ∧ GameState.score final = 100 * Z.of_nat (length batch)
  ∧ GameState.totalCorrect final = Z.of_nat (length batch)
  ∧ GameState.totalIncorrect final = 0
  ∧ tasksToAudit endlessMode (GameState.tasks final) = []
  ∧ GameState.auditReport
      (App.state
         (handleContinueFromEmergency api speak
            (App.mk final endlessMode EASY true false)))
    = Some {| AuditReport.findings := [];
              AuditReport.summary := perfectScoreSummary;
              AuditReport.audioUrl := speak perfectScoreSummary |}.
Proof.
  intros Hsome. destruct batch as [| first others]; [done |].
  assert (Hstart : GameState.tasks (roundOn (first :: others))
                   = [] ++ Task.with_status current first
                           :: (Task.with_status pending <$> others)).
  { cbn. fold (installed (first :: others)). apply installed_cons. }
  destruct (perfect_from _ [] _ (roundOn (first :: others)) Hstart eq_refl)
    as (Hphase & Hreason & Htasks & Hscore & Hcorrect & Hwrong).
  cbn zeta in *.
  assert (Hanswers :
    correctAnswer <$> Task.with_status current first
                      :: (Task.with_status pending <$> others)
    = correctAnswer <$> first :: others).
  { rewrite !fmap_cons. f_equal. rewrite <- list_fmap_compose.
    by apply list_fmap_ext. }
  assert (Hanswered :
    answeredRight <$> Task.with_status current first
                      :: (Task.with_status pending <$> others)
    = answeredRight <$> first :: others).
  { rewrite !fmap_cons. f_equal. rewrite <- list_fmap_compose.
    by apply list_fmap_ext. }
  rewrite Hanswers, Hanswered in *. cbn [app] in Htasks.
  rewrite length_fmap in Hscore, Hcorrect.
  assert (Hnone : tasksToAudit endlessMode
                    (GameState.tasks
                       (dispatchAll (roundOn (first :: others))
                          (ANSWER_TASK <$> (correctAnswer <$> first :: others))))
                  = []).
  { rewrite Htasks. apply tasksToAudit_answeredRight. }
  split; [exact Hphase |]. split; [exact Hreason |].
  split; [exact Htasks |].
  split; [etransitivity; [exact Hscore |]; cbn [length]; cbn; lia |].
  split; [etransitivity; [exact Hcorrect |]; cbn [length]; cbn; lia |].
  split; [etransitivity; [exact Hwrong |]; reflexivity |].
  split; [exact Hnone |].
  unfold handleContinueFromEmergency.
  cbn [App.state App.endlessMode]. rewrite Hnone. reflexivity.
Qed.

Lemma perfect_round_witness :
  let batch := [sqlTask; safeTask; xssTask] in
  let final :=
    dispatchAll (roundOn batch) (ANSWER_TASK <$> (correctAnswer <$> batch)) in
  batch ≠ []
  ∧ GameState.score final = 300
  ∧ Task.status <$> GameState.tasks final = [completed; completed; completed]
  ∧ tasksToAudit false (GameState.tasks final) = [].
Proof.
  intros batch final.
  assert (Hsome : batch ≠ []) by discriminate.
  pose proof (perfect_round batch false None (λ _, None) Hsome) as Hthm.
  cbv zeta in Hthm.
  destruct Hthm as (_ & _ & Htasks & Hscore & _ & _ & Hnone & _).
  split; [exact Hsome |]. split; [exact Hscore |].
  split; [| exact Hnone].
  unfold final. rewrite Htasks. vm_compute. reflexivity.
Defined.
